(** * QSpider: the Q-learning frontier controller of deep-deep

    A shallow embedding of [deepdeep/spiders/qspider.py] and of the
    collaborators it drives (score/priority codec, Q function, frontier
    queue, link extractor), followed by the properties of the controller.

    Conventions of the embedding:
    - Python integers are [Z]; [%] is [Z.modulo] (the sign follows the
      divisor, as in Python) and raises [ZeroDivisionError] on a zero divisor;
    - scores and rewards (Python floats) are exact rationals [Q];
    - [request.meta] is a record of the keys the spider reads or writes, an
      absent key being [None];
    - the spider object is a record threaded through a state-and-exception
      monad; an exception keeps the state reached when it was raised;
    - every call that leaves the controller (Q function, scheduler,
      persistence, logging) appends an event to the [trace] of the state. *)

From Stdlib Require Import ZArith QArith Qround Qabs Lia Lqa.
From stdpp Require Import base gmap sets list strings.

Local Open Scope Z_scope.

(** ** State-and-exception monad *)

Inductive Exn :=
  | ZeroDivisionError
  | KeyError (key : string)
  | AttributeError (attr : string)
  | TypeError
  | IndexError.

Inductive Outcome (S A : Type) :=
  | Return (a : A) (s : S)
  | Raise (e : Exn) (s : S).
Arguments Return {S A} a s.
Arguments Raise {S A} e s.

Definition Eff (S A : Type) : Type := S -> Outcome S A.

Definition ret {S A} (a : A) : Eff S A := fun s => Return a s.

Definition bind {S A B} (m : Eff S A) (k : A -> Eff S B) : Eff S B :=
  fun s => match m s with
           | Return a s' => k a s'
           | Raise e s' => Raise e s'
           end.

Definition raise {S A} (e : Exn) : Eff S A := fun s => Raise e s.
Definition get {S} : Eff S S := fun s => Return s s.
Definition modify {S} (f : S -> S) : Eff S unit := fun s => Return tt (f s).

Declare Scope eff_scope.
Delimit Scope eff_scope with eff.
Notation "x <- m ;; k" := (bind m (fun x => k))
  (at level 100, m at next level, right associativity) : eff_scope.
Notation "m ;;; k" := (bind m (fun _ => k))
  (at level 100, right associativity) : eff_scope.
Local Open Scope eff_scope.

(** [for x in l: body(x)] *)
Fixpoint for_each {S A} (l : list A) (body : A -> Eff S unit) : Eff S unit :=
  match l with
  | [] => ret tt
  | x :: l' => body x ;;; for_each l' body
  end.

(** The state an outcome ends in, returned or raised. *)
Definition final_state {S A} (o : Outcome S A) : S :=
  match o with Return _ s => s | Raise _ s => s end.

Definition returned {S A} (o : Outcome S A) : option A :=
  match o with Return a _ => Some a | Raise _ _ => None end.

(** [hoare P m Q]: from a state where [P] holds, [m] ends, returning or
    raising, in a state where [Q] holds. *)
Definition hoare {S A} (P : S -> Prop) (m : Eff S A) (Q : S -> Prop) : Prop :=
  forall s, P s -> Q (final_state (m s)).

(** ** Score/priority codec ([deepdeep.queues]) *)

Module Codec.

(** Python's [round]: to the nearest integer, a tie going to the even one. *)
Definition round_half_even (x : Q) : Z :=
  let f := Qfloor x in
  match Qcompare (x - inject_Z f) (1 # 2) with
  | Lt => f
  | Gt => f + 1
  | Eq => if Z.even f then f else f + 1
  end.

(** The cast of a float to a numpy [int] cell (and Python's [int(x)]):
    truncation toward zero. *)
Definition truncate (x : Q) : Z := Z.quot (Qnum x) (Zpos (Qden x)).

Section WithMultiplier.
(** [FLOAT_PRIORITY_MULTIPLIER], the fixed constant M. *)
Variable M : Z.

(** Modelled from the spec: [deepdeep.queues.score_to_priority] is not in
    the sources at hand; section 3 gives [priority = round(score * M)]. *)
Definition score_to_priority (score : Q) : Z :=
  round_half_even (score * inject_Z M).

(** Modelled from the spec: [deepdeep.queues.priority_to_score], section
    4.6: [score_estimate = priority / M]. *)
Definition priority_to_score (prio : Z) : Q :=
  inject_Z prio / inject_Z M.
End WithMultiplier.

End Codec.

(** ** Data model *)

(** Feature spaces of the external vectorizers: a state-action vector (a row
    of the sparse links matrix) and a page vector. *)
Class Vectors := {
  SAV : Type;
  PageVector : Type;
}.

(** A link dict as produced by the link extractor. *)
Record Link := {
  link_url : string;
  link_inside_text : string;
}.

Section Data.
Context `{Vectors}.

(** [request.meta] / [response.meta]. *)
Record Meta := {
  link_vector : option SAV;
  scheduler_slot : option string;
  node_id : option Z;
  link : option Link;
  from_random_policy : option bool;
}.

Definition empty_meta : Meta :=
  {| link_vector := None; scheduler_slot := None; node_id := None;
     link := None; from_random_policy := None |}.

(** [scrapy.Request]; [req_domain] is what [set_request_domain] records. *)
Record Request := {
  req_url : string;
  priority : Z;
  req_meta : Meta;
  req_domain : option string;
}.

Definition replace_priority (r : Request) (p : Z) : Request :=
  {| req_url := req_url r; priority := p; req_meta := req_meta r;
     req_domain := req_domain r |}.

(** [scrapy.http.Response]; [text] is present for a [TextResponse] only
    ([hasattr(response, 'text')]). [response.meta] is the meta of the
    request that was fetched. *)
Record Response := {
  url : string;
  request : Request;
  text : option string;
}.

Definition meta (r : Response) : Meta := req_meta (request r).
Definition has_text (r : Response) : bool :=
  match text r with Some _ => true | None => false end.

(** An experience [(as_t, AS_t1, r_t1)]; [AS_t1 = None] is terminal. *)
Record Experience := {
  as_t : option SAV;
  AS_t1 : option (list SAV);
  r_t1 : Q;
}.

(** Values stored in a crawl-graph node. *)
Inductive NodeValue :=
  | NInt (z : Z)
  | NFloat (q : Q).

(** Values of the stats dict [parse] yields first. *)
Inductive StatValue :=
  | SInt (z : Z)
  | SFloat (q : Q)
  | SBool (b : bool)
  | SStr (s : string)
  | SNone.

Inductive Item :=
  | StatsItem (s : gmap string StatValue)
  | RequestItem (r : Request).
End Data.

(** ** External collaborators *)

(** What the controller only consumes: the constant of the codec, the
    vectorizers, the link extractor's HTML side, the Q function's numerics and
    the goal ([BaseGoal] is abstract in the source). *)
Class Collaborators `{Vectors} := {
  FLOAT_PRIORITY_MULTIPLIER : Z;
  (* feature extraction: one row per link, one vector per page text *)
  link_vector_of : Link -> SAV;
  page_vector_of : string -> PageVector;
  get_domain : string -> string;
  (* link extraction from a textual response, before any deduplication *)
  page_links : Response -> bool -> list Link;
  (* Q function *)
  Model : Type;
  score_row : Model -> SAV -> Q;
  join_row : SAV -> option PageVector -> SAV;
  fit : Model -> list Experience -> Z -> Model;
  model_changed : Z -> Model -> Model -> bool;
  (* goal *)
  Goal_ : Type;
  get_reward : Goal_ -> Response -> Q;
  response_observed : Goal_ -> Response -> Goal_;
  is_acheived_for : Goal_ -> string -> bool;
}.

(** ** Controller state *)

Section State.
Context `{Collaborators}.

(** The [QLearner] object: step counter, replay memory, parameters. *)
Record QLearner := {
  t_ : Z;
  memory : list Experience;
  params : Model;
}.

(** The frontier: one queue per open slot, in insertion order, and the set
    of closed slots. *)
Record Scheduler := {
  queues : gmap string (list Request);
  closed_slots : gset string;
}.

(** Calls that leave the controller, in the order they are made. *)
Inductive Event :=
  | EvResponseCount
  | EvCloseFinishedQueues
  | EvCloseSlot (slot : string)
  | EvDebug (reward : Q)
  | EvAddExperience (e : Experience)
  | EvModelChanged
  | EvRecalculate
  | EvUpdatePriorities (slot : string)
  | EvPredict (AS : list SAV)
  | EvDeduplicate (links : list Link)
  | EvLogStats
  | EvMaybeCheckpoint
  | EvDumpPolicy (path : string) (t : Z)
  | EvDumpGraph (path : string)
  | EvSaveParams (path : string).

(** The spider object. [Q_] is [self.Q]; [seen_urls] is the seen set of the
    link extractor [self.le]; [G] is present when the crawl graph is
    tracked ([hasattr(self, 'G')]). *)
Record QSpider := {
  baseline : bool;
  use_pages : Z;
  stay_in_domain : bool;
  checkpoint_interval : Z;
  checkpoint_path : option string;
  Q_ : QLearner;
  total_reward : Q;
  model_changes : Z;
  goal : Goal_;
  G : option (gmap Z (gmap string NodeValue));
  scheduler : Scheduler;
  seen_urls : gset string;
  response_count : Z;
  crawler_stats : gmap string Z;
  trace : list Event;
}.

Definition set_Q_ (f : QLearner -> QLearner) (s : QSpider) : QSpider :=
  {| baseline := baseline s; use_pages := use_pages s;
     stay_in_domain := stay_in_domain s;
     checkpoint_interval := checkpoint_interval s;
     checkpoint_path := checkpoint_path s; Q_ := f (Q_ s);
     total_reward := total_reward s; model_changes := model_changes s;
     goal := goal s; G := G s; scheduler := scheduler s;
     seen_urls := seen_urls s; response_count := response_count s;
     crawler_stats := crawler_stats s; trace := trace s |}.

Definition set_total_reward (f : Q -> Q) (s : QSpider) : QSpider :=
  {| baseline := baseline s; use_pages := use_pages s;
     stay_in_domain := stay_in_domain s;
     checkpoint_interval := checkpoint_interval s;
     checkpoint_path := checkpoint_path s; Q_ := Q_ s;
     total_reward := f (total_reward s); model_changes := model_changes s;
     goal := goal s; G := G s; scheduler := scheduler s;
     seen_urls := seen_urls s; response_count := response_count s;
     crawler_stats := crawler_stats s; trace := trace s |}.

Definition set_model_changes (f : Z -> Z) (s : QSpider) : QSpider :=
  {| baseline := baseline s; use_pages := use_pages s;
     stay_in_domain := stay_in_domain s;
     checkpoint_interval := checkpoint_interval s;
     checkpoint_path := checkpoint_path s; Q_ := Q_ s;
     total_reward := total_reward s; model_changes := f (model_changes s);
     goal := goal s; G := G s; scheduler := scheduler s;
     seen_urls := seen_urls s; response_count := response_count s;
     crawler_stats := crawler_stats s; trace := trace s |}.

Definition set_goal (f : Goal_ -> Goal_) (s : QSpider) : QSpider :=
  {| baseline := baseline s; use_pages := use_pages s;
     stay_in_domain := stay_in_domain s;
     checkpoint_interval := checkpoint_interval s;
     checkpoint_path := checkpoint_path s; Q_ := Q_ s;
     total_reward := total_reward s; model_changes := model_changes s;
     goal := f (goal s); G := G s; scheduler := scheduler s;
     seen_urls := seen_urls s; response_count := response_count s;
     crawler_stats := crawler_stats s; trace := trace s |}.

Definition set_G (f : option (gmap Z (gmap string NodeValue)) ->
                     option (gmap Z (gmap string NodeValue)))
    (s : QSpider) : QSpider :=
  {| baseline := baseline s; use_pages := use_pages s;
     stay_in_domain := stay_in_domain s;
     checkpoint_interval := checkpoint_interval s;
     checkpoint_path := checkpoint_path s; Q_ := Q_ s;
     total_reward := total_reward s; model_changes := model_changes s;
     goal := goal s; G := f (G s); scheduler := scheduler s;
     seen_urls := seen_urls s; response_count := response_count s;
     crawler_stats := crawler_stats s; trace := trace s |}.

Definition set_scheduler (f : Scheduler -> Scheduler) (s : QSpider)
    : QSpider :=
  {| baseline := baseline s; use_pages := use_pages s;
     stay_in_domain := stay_in_domain s;
     checkpoint_interval := checkpoint_interval s;
     checkpoint_path := checkpoint_path s; Q_ := Q_ s;
     total_reward := total_reward s; model_changes := model_changes s;
     goal := goal s; G := G s; scheduler := f (scheduler s);
     seen_urls := seen_urls s; response_count := response_count s;
     crawler_stats := crawler_stats s; trace := trace s |}.

Definition set_seen_urls (f : gset string -> gset string) (s : QSpider)
    : QSpider :=
  {| baseline := baseline s; use_pages := use_pages s;
     stay_in_domain := stay_in_domain s;
     checkpoint_interval := checkpoint_interval s;
     checkpoint_path := checkpoint_path s; Q_ := Q_ s;
     total_reward := total_reward s; model_changes := model_changes s;
     goal := goal s; G := G s; scheduler := scheduler s;
     seen_urls := f (seen_urls s); response_count := response_count s;
     crawler_stats := crawler_stats s; trace := trace s |}.

Definition set_response_count (f : Z -> Z) (s : QSpider) : QSpider :=
  {| baseline := baseline s; use_pages := use_pages s;
     stay_in_domain := stay_in_domain s;
     checkpoint_interval := checkpoint_interval s;
     checkpoint_path := checkpoint_path s; Q_ := Q_ s;
     total_reward := total_reward s; model_changes := model_changes s;
     goal := goal s; G := G s; scheduler := scheduler s;
     seen_urls := seen_urls s; response_count := f (response_count s);
     crawler_stats := crawler_stats s; trace := trace s |}.

Definition set_crawler_stats (f : gmap string Z -> gmap string Z)
    (s : QSpider) : QSpider :=
  {| baseline := baseline s; use_pages := use_pages s;
     stay_in_domain := stay_in_domain s;
     checkpoint_interval := checkpoint_interval s;
     checkpoint_path := checkpoint_path s; Q_ := Q_ s;
     total_reward := total_reward s; model_changes := model_changes s;
     goal := goal s; G := G s; scheduler := scheduler s;
     seen_urls := seen_urls s; response_count := response_count s;
     crawler_stats := f (crawler_stats s); trace := trace s |}.

Definition set_trace (f : list Event -> list Event) (s : QSpider)
    : QSpider :=
  {| baseline := baseline s; use_pages := use_pages s;
     stay_in_domain := stay_in_domain s;
     checkpoint_interval := checkpoint_interval s;
     checkpoint_path := checkpoint_path s; Q_ := Q_ s;
     total_reward := total_reward s; model_changes := model_changes s;
     goal := goal s; G := G s; scheduler := scheduler s;
     seen_urls := seen_urls s; response_count := response_count s;
     crawler_stats := crawler_stats s; trace := f (trace s) |}.

Definition emit (e : Event) : Eff QSpider unit :=
  modify (set_trace (fun tr => tr ++ [e])).
End State.

(** ** Collaborator objects *)

Section Objects.
Context `{Collaborators}.

(** [a % b] *)
Definition py_mod {S} (a b : Z) : Eff S Z :=
  if b =? 0 then raise ZeroDivisionError else ret (a mod b).

(** *** Q function ([deepdeep.qlearning.QLearner]) *)

(** Modelled from the spec: [QLearner.predict], section 6,
    [predict(batchOfVectors) -> scores]: one score per row from the
    current parameters, value-function state untouched. *)
Definition Q_predict (AS : list SAV) : Eff QSpider (list Q) :=
  emit (EvPredict AS) ;;;
  s <- get ;;
  ret (map (score_row (params (Q_ s))) AS).

(** Modelled from the spec: [QLearner.join_As], section 4.1: the next-state
    matrix, page-content features merged into each row; no links, no
    matrix. *)
Definition Q_join_As (links_matrix : option (list SAV))
    (page_vector : option PageVector) : option (list SAV) :=
  option_map (map (fun v => join_row v page_vector)) links_matrix.

(** Modelled from the spec: [QLearner.add_experience], section 6: stores the
    experience, advances the step counter, updates the parameters and
    signals the controller through the registered callback when the value
    function changed. *)
Definition Q_add_experience (on_model_changed : Eff QSpider unit)
    (e : Experience) : Eff QSpider unit :=
  emit (EvAddExperience e) ;;;
  s <- get ;;
  let q := Q_ s in
  let t' := t_ q + 1 in
  let memory' := memory q ++ [e] in
  let params' := fit (params q) memory' t' in
  modify (set_Q_ (fun _ =>
    {| t_ := t'; memory := memory'; params := params' |})) ;;;
  if model_changed t' (params q) params' then on_model_changed else ret tt.

(** *** Frontier ([deepdeep.scheduler.Scheduler] over a
    [BalancedPriorityQueue]) *)

(** Modelled from the spec: [get_active_slots], section 6,
    [activeSlots() -> set of domain keys]: the open slots. *)
Definition get_active_slots (sch : Scheduler) : list string :=
  elements (dom (queues sch)).

(** Modelled from the spec: [Scheduler.close_slot], section 4.4: the slot
    leaves the open ones for good and its pending requests are abandoned. *)
Definition queue_close_slot (slot : string) (sch : Scheduler) : Scheduler :=
  {| queues := delete slot (queues sch);
     closed_slots := {[ slot ]} ∪ closed_slots sch |}.

Definition close_slot (slot : string) : Eff QSpider unit :=
  emit (EvCloseSlot slot) ;;;
  modify (set_scheduler (queue_close_slot slot)).

(** The queue of an open slot, rewritten in place. *)
Definition put_queue (slot : string) (q : list Request) (sch : Scheduler)
    : Scheduler :=
  {| queues := <[ slot := q ]> (queues sch);
     closed_slots := closed_slots sch |}.

(** Modelled from the spec: [get_queue(slot).update_all_priorities(f)],
    section 6: [f] maps the ordered batch of pending requests to new
    integer priorities, applied in place; no request is lost. *)
Definition update_all_priorities (slot : string)
    (compute_priority_func : list Request -> Eff QSpider (list Z))
    : Eff QSpider unit :=
  s <- get ;;
  match queues (scheduler s) !! slot with
  | None => raise (KeyError slot)
  | Some requests =>
      emit (EvUpdatePriorities slot) ;;;
      new_priorities <- compute_priority_func requests ;;
      modify (set_scheduler
        (put_queue slot (zip_with replace_priority requests new_priorities)))
  end.

(** The slot a request is queued under. *)
Definition request_slot (r : Request) : string :=
  match scheduler_slot (req_meta r) with
  | Some slot => slot
  | None => get_domain (req_url r)
  end.

(** Modelled from the spec: [Scheduler.enqueue_request], sections 3 and
    4.4: a slot is created on the first request for its domain; a request
    for a closed slot is dropped. *)
Definition enqueue_request (r : Request) (sch : Scheduler) : Scheduler :=
  let slot := request_slot r in
  if bool_decide (slot ∈ closed_slots sch) then sch
  else {| queues := <[ slot := default [] (queues sch !! slot) ++ [r] ]>
                      (queues sch);
          closed_slots := closed_slots sch |}.

(** Modelled from the spec: [Scheduler.next_request]: the request at
    position [i] of the queue of an open slot leaves the frontier. *)
Definition dequeue_request (slot : string) (i : nat) (sch : Scheduler)
    : Scheduler :=
  {| queues := alter (fun q => take i q ++ drop (S i) q) slot (queues sch);
     closed_slots := closed_slots sch |}.

(** *** Link extractor ([self.le]) *)

(** Modelled from the spec: [iter_link_dicts(deduplicate_local=True)],
    section 4.1: identical links of one page reduce to the first. *)
Fixpoint deduplicate_local (seen : gset string) (links : list Link)
    : list Link :=
  match links with
  | [] => []
  | l :: links' =>
      if bool_decide (link_url l ∈ seen) then deduplicate_local seen links'
      else l :: deduplicate_local ({[ link_url l ]} ∪ seen) links'
  end.

(** Modelled from the spec: [deduplicate_links_enumerated], section 4.2:
    links whose URL is in the process-wide seen set are dropped, the others
    are yielded with their index and become seen. *)
Fixpoint dedup_enumerated (seen : gset string) (idx : nat)
    (links : list Link) : list (nat * Link) * gset string :=
  match links with
  | [] => ([], seen)
  | l :: links' =>
      if bool_decide (link_url l ∈ seen)
      then dedup_enumerated seen (S idx) links'
      else
        let '(out, seen') :=
          dedup_enumerated ({[ link_url l ]} ∪ seen) (S idx) links' in
        ((idx, l) :: out, seen')
  end.

Definition deduplicate_links_enumerated (links : list Link)
    : Eff QSpider (list (nat * Link)) :=
  emit (EvDeduplicate links) ;;;
  s <- get ;;
  let '(out, seen') := dedup_enumerated (seen_urls s) 0 links in
  modify (set_seen_urls (fun _ => seen')) ;;;
  ret out.
End Objects.

(** ** The spider ([QSpider]) *)

Section Spider.
Context `{Collaborators}.

Definition score_to_priority : Q -> Z :=
  Codec.score_to_priority FLOAT_PRIORITY_MULTIPLIER.
Definition priority_to_score : Z -> Q :=
  Codec.priority_to_score FLOAT_PRIORITY_MULTIPLIER.

Definition initial_priority : Z := score_to_priority 5.

(** [is_seed(r)]: ['link_vector' not in r.meta] *)
Definition is_seed (m : Meta) : bool :=
  match link_vector m with Some _ => false | None => true end.

(** BaseSpider's response counter. *)
Definition increase_response_count : Eff QSpider unit :=
  emit EvResponseCount ;;;
  modify (set_response_count (fun n => n + 1)).

Definition update_node (response : Response)
    (data : gmap string NodeValue) : Eff QSpider unit :=
  s <- get ;;
  match G s with
  | None => ret tt
  | Some g =>
      match node_id (meta response) with
      | None => raise (KeyError "node_id")
      | Some nid =>
          match g !! nid with
          | None => raise (KeyError "node")
          | Some node =>
              let node := <[ "t" := NInt (t_ (Q_ s)) ]> node in
              modify (set_G (fun _ => Some (<[ nid := data ∪ node ]> g)))
          end
      end
  end.

(** *** Priority refresh *)

(** One turn of the loop over [enumerate(requests)]. *)
Definition scan_request (acc : list Z * list SAV * list nat)
    (ir : nat * Request) : list Z * list SAV * list nat :=
  let '(priorities, vectors, indices) := acc in
  let '(idx, request) := ir in
  if is_seed (req_meta request)
  then (<[ idx := priority request ]> priorities, vectors, indices)
  else
    match link_vector (req_meta request) with
    | Some v => (priorities, vectors ++ [v], indices ++ [idx])
    | None => acc
    end.

(** [priorities[indices] = values], the values cast to the array's
    integer type. *)
Definition assign_indices (priorities : list Z) (indices : list nat)
    (values : list Q) : list Z :=
  foldl (fun ps iv => <[ iv.1 := Codec.truncate iv.2 ]> ps)
        priorities (zip indices values).

(** The closure [request_priorities] of
    [recalculate_request_priorities]. The cells of the fresh array are
    written as 0 until assigned. *)
Definition request_priorities (requests : list Request)
    : Eff QSpider (list Z) :=
  let priorities := replicate (length requests) 0 in
  let '(priorities, vectors, indices) :=
    foldl scan_request (priorities, [], []) (imap pair requests) in
  match vectors with
  | [] => ret priorities
  | _ :: _ =>
      scores <- Q_predict vectors ;;
      ret (assign_indices priorities indices
             (map (fun score =>
                     (score * inject_Z FLOAT_PRIORITY_MULTIPLIER)%Q)
                  scores))
  end.

Definition recalculate_request_priorities : Eff QSpider unit :=
  emit EvRecalculate ;;;
  s <- get ;;
  if baseline s then ret tt
  else
    for_each (get_active_slots (scheduler s)) (fun slot =>
      update_all_priorities slot request_priorities).

Definition on_model_changed : Eff QSpider unit :=
  emit EvModelChanged ;;;
  modify (set_model_changes (fun n => n + 1)) ;;;
  s <- get ;;
  m <- py_mod (model_changes s) 1 ;;
  if m =? 0 then recalculate_request_priorities else ret tt.

(** *** Slot lifecycle *)

Definition close_finished_queues : Eff QSpider unit :=
  emit EvCloseFinishedQueues ;;;
  s <- get ;;
  for_each (get_active_slots (scheduler s)) (fun slot =>
    s <- get ;;
    if is_acheived_for (goal s) slot then close_slot slot else ret tt).

(** *** Link scoring *)

Definition _get_page_vector (response : Response)
    : Eff QSpider (option PageVector) :=
  s <- get ;;
  if use_pages s =? 0 then ret None
  else
    match text response with
    | Some txt => ret (Some (page_vector_of txt))
    | None => raise (AttributeError "text")
    end.

Definition _extract_links (response : Response) : Eff QSpider (list Link) :=
  s <- get ;;
  ret (deduplicate_local ∅ (page_links response (stay_in_domain s))).

(** [links_matrix[list(indices)]] *)
Definition select_rows (links_matrix : option (list SAV))
    (indices : list nat) : Eff QSpider (list SAV) :=
  match links_matrix with
  | None => raise TypeError
  | Some rows =>
      match mapM (fun i => rows !! i) indices with
      | Some AS => ret AS
      | None => raise IndexError
      end
  end.

Definition new_request (l : Link) (v : SAV) (score : Q) : Request :=
  let url := link_url l in
  let next_domain := get_domain url in
  let meta := {| link_vector := Some v;
                 scheduler_slot := Some next_domain;
                 node_id := None; link := None;
                 from_random_policy := None |} in
  let priority := score_to_priority score in
  {| req_url := url; priority := priority; req_meta := meta;
     req_domain := Some next_domain |}.

Definition _links_to_requests (links : list Link)
    (links_matrix : option (list SAV)) : Eff QSpider (list Request) :=
  indices_and_links <- deduplicate_links_enumerated links ;;
  match indices_and_links with
  | [] => ret []
  | _ :: _ =>
      let indices := map fst indices_and_links in
      let links_to_follow := map snd indices_and_links in
      AS <- select_rows links_matrix indices ;;
      scores <- Q_predict AS ;;
      ret (zip_with (fun l vs => new_request l vs.1 vs.2)
                    links_to_follow (zip AS scores))
  end.

(** *** Experience recording *)

Definition _parse (response : Response) : Eff QSpider (list Request * Q) :=
  if is_seed (meta response) && negb (has_text response)
  then (* bad seed *) ret ([], 0%Q)
  else
    let as_t := link_vector (meta response) in
    if negb (has_text response)
    then
      (* learn to avoid non-html responses *)
      Q_add_experience on_model_changed
        {| as_t := as_t; AS_t1 := None; r_t1 := 0 |} ;;;
      update_node response {[ "reward" := NFloat 0 ]} ;;;
      ret ([], 0%Q)
    else
      page_vector <- _get_page_vector response ;;
      links <- _extract_links response ;;
      let links_matrix :=
        match links with
        | [] => None
        | _ :: _ => Some (map link_vector_of links)
        end in
      let links_matrix := Q_join_As links_matrix page_vector in
      reward <-
        (if negb (is_seed (meta response))
         then
           s <- get ;;
           let reward := get_reward (goal s) response in
           update_node response {[ "reward" := NFloat reward ]} ;;;
           modify (set_total_reward (fun total => (total + reward)%Q)) ;;;
           Q_add_experience on_model_changed
             {| as_t := as_t; AS_t1 := links_matrix; r_t1 := reward |} ;;;
           modify (set_goal (fun g => response_observed g response)) ;;;
           ret reward
         else ret 0%Q) ;;
      requests <- _links_to_requests links links_matrix ;;
      ret (requests, reward).

(** *** Checkpoints *)

Definition _save_params_json : Eff QSpider unit :=
  s <- get ;;
  match checkpoint_path s with
  | None => ret tt
  | Some path => if String.eqb path "" then ret tt
                 else emit (EvSaveParams path)
  end.

Definition dump_crawl_graph (path : string) : Eff QSpider unit :=
  s <- get ;;
  match G s with
  | Some _ => emit (EvDumpGraph path)
  | None => ret tt
  end.

Definition dump_policy (path : string) : Eff QSpider unit :=
  s <- get ;;
  emit (EvDumpPolicy path (t_ (Q_ s))).

Definition do_checkpoint : Eff QSpider unit :=
  s <- get ;;
  match checkpoint_path s with
  | None => ret tt
  | Some path =>
      if String.eqb path "" then ret tt
      else dump_policy path ;;; dump_crawl_graph path
  end.

Definition maybe_checkpoint : Eff QSpider unit :=
  emit EvMaybeCheckpoint ;;;
  s <- get ;;
  m <- py_mod (t_ (Q_ s)) (checkpoint_interval s) ;;
  if negb (m =? 0) || (t_ (Q_ s) =? 0) then ret tt
  else do_checkpoint.

(** *** Statistics *)

Definition _domain_stats (s : QSpider) : nat * nat :=
  (length (get_active_slots (scheduler s)),
   size (closed_slots (scheduler s))).

Definition get_value (s : QSpider) (key : string) (dflt : Z) : Z :=
  default dflt (crawler_stats s !! key).

Definition get_stats_item (s : QSpider) : gmap string StatValue :=
  let '(domains_open, domains_closed) := _domain_stats s in
  let enqueued := get_value s "custom-scheduler/enqueued/" 0 in
  let dequeued := get_value s "custom-scheduler/dequeued/" 0 in
  let dropped := get_value s "custom-scheduler/dropped/" 0 in
  let todo := enqueued - dequeued - dropped in
  <[ "_type" := SStr "stats" ]> (
  <[ "t" := SInt (t_ (Q_ s)) ]> (
  <[ "return" := SFloat (total_reward s) ]> (
  <[ "domains_open" := SInt (Z.of_nat domains_open) ]> (
  <[ "domains_closed" := SInt (Z.of_nat domains_closed) ]> (
  <[ "enqueued" := SInt enqueued ]> (
  <[ "processed" := SInt dequeued ]> (
  <[ "dropped" := SInt dropped ]> (
  <[ "todo" := SInt todo ]> ∅)))))))).

(** [_examples] returns [None, None]: no example is scored. *)
Definition log_stats : Eff QSpider unit := emit EvLogStats.

Definition _debug_expected_vs_got (response : Response)
    : Eff QSpider unit :=
  match link (meta response) with
  | None => ret tt
  | Some _ =>
      s <- get ;;
      emit (EvDebug (get_reward (goal s) response))
  end.

(** *** Processing one response *)

Definition parse (response : Response) : Eff QSpider (list Item) :=
  increase_response_count ;;;
  close_finished_queues ;;;
  _debug_expected_vs_got response ;;;
  out <- _parse response ;;
  log_stats ;;;
  maybe_checkpoint ;;;
  s <- get ;;
  let stats := get_stats_item s in
  let stats := <[ "is_seed" := SBool (is_seed (meta response)) ]> stats in
  let stats := <[ "reward" := SFloat out.2 ]> stats in
  let stats := <[ "url" := SStr (url response) ]> stats in
  let stats :=
    <[ "Q" := SFloat (priority_to_score (priority (request response))) ]>
      stats in
  let stats :=
    <[ "eps-policy" :=
         match from_random_policy (req_meta (request response)) with
         | Some b => SBool b
         | None => SNone
         end ]> stats in
  ret (StatsItem stats :: map RequestItem out.1).

(** *** The controller inside the engine *)

(** One step of the crawl as the controller sees it: a response is
    processed (to its end or to an exception), a yielded request reaches the
    frontier, or the engine takes a pending request out of it. *)
Inductive step : QSpider -> QSpider -> Prop :=
  | step_parse (s : QSpider) (response : Response) :
      step s (final_state (parse response s))
  | step_enqueue (s : QSpider) (r : Request) :
      step s (set_scheduler (enqueue_request r) s)
  | step_dequeue (s : QSpider) (slot : string) (i : nat) :
      step s (set_scheduler (dequeue_request slot i) s).

Inductive steps : QSpider -> QSpider -> Prop :=
  | steps_refl (s : QSpider) : steps s s
  | steps_cons (s1 s2 s3 : QSpider) :
      step s1 s2 -> steps s2 s3 -> steps s1 s3.

(** Events of a kind, for counting calls in a trace. *)
Definition is_recalculate (e : Event) : bool :=
  match e with EvRecalculate => true | _ => false end.
Definition is_predict (e : Event) : bool :=
  match e with EvPredict _ => true | _ => false end.
Definition is_add_experience (e : Event) : bool :=
  match e with EvAddExperience _ => true | _ => false end.
Definition is_dump_policy (e : Event) : bool :=
  match e with EvDumpPolicy _ _ => true | _ => false end.

Definition count (p : Event -> bool) (tr : list Event) : nat :=
  length (filter (fun e => p e = true) tr).

(** The events an operation adds to the trace from state [s]. *)
Definition new_events {A} (m : Eff QSpider A) (s : QSpider) : list Event :=
  drop (length (trace s)) (trace (final_state (m s))).

(** A checkpoint is taken when the policy is dumped. *)
Definition checkpoint_taken (s : QSpider) : bool :=
  existsb is_dump_policy (new_events maybe_checkpoint s).

(** [checkpoint_path] is truthy. *)
Definition destination_configured (s : QSpider) : bool :=
  match checkpoint_path s with
  | Some path => negb (String.eqb path "")
  | None => false
  end.

(** The phase of the processing of a response an event belongs to;
    predictions, logging and counters belong to none of their own. *)
Definition phase (e : Event) : option nat :=
  match e with
  | EvCloseFinishedQueues | EvCloseSlot _ => Some 1%nat
  | EvAddExperience _ => Some 2%nat
  | EvModelChanged | EvRecalculate | EvUpdatePriorities _ => Some 3%nat
  | EvDeduplicate _ => Some 4%nat
  | EvMaybeCheckpoint | EvDumpPolicy _ _ | EvDumpGraph _
  | EvSaveParams _ => Some 5%nat
  | EvResponseCount | EvDebug _ | EvPredict _ | EvLogStats => None
  end.

(** The order section 5 of the spec gives: experience recording, refresh
    trigger check, slot closing, link scoring. *)
Definition spec_phase (e : Event) : option nat :=
  match e with
  | EvAddExperience _ => Some 1%nat
  | EvModelChanged => Some 2%nat
  | EvCloseFinishedQueues | EvCloseSlot _ => Some 3%nat
  | EvDeduplicate _ => Some 4%nat
  | _ => None
  end.

(** The events of a trace that have a phase come in phase order. *)
Definition in_phase_order (ph : Event -> option nat) (tr : list Event)
    : Prop :=
  forall (i j : nat) (e1 e2 : Event) (p1 p2 : nat),
    tr !! i = Some e1 -> tr !! j = Some e2 ->
    ph e1 = Some p1 -> ph e2 = Some p2 ->
    (p1 < p2)%nat -> (i < j)%nat.

(** What a refresh pass makes of a pending request under [model]. *)
Definition refreshed (model : Model) (r : Request) : Request :=
  match link_vector (req_meta r) with
  | None => r
  | Some v =>
      replace_priority r
        (Codec.truncate
           (score_row model v * inject_Z FLOAT_PRIORITY_MULTIPLIER)%Q)
  end.

(** A slot is closed: recorded as such, and without a queue. *)
Definition closed (slot : string) (s : QSpider) : Prop :=
  slot ∈ closed_slots (scheduler s) /\ queues (scheduler s) !! slot = None.

(** The state-action vectors retained by a batch of pending requests, and
    the prediction call a refresh makes for them when there is any. *)
Definition vectors_of (requests : list Request) : list SAV :=
  omap (fun r => link_vector (req_meta r)) requests.

Definition note_prediction (requests : list Request) (s : QSpider)
    : QSpider :=
  match vectors_of requests with
  | [] => s
  | vs => set_trace (fun tr => tr ++ [EvPredict vs]) s
  end.

(** Events whose emission needs no side condition in the frame rules
    below: all but the recording of an experience and the refresh of a
    slot. *)
Definition harmless (e : Event) : Prop :=
  match e with
  | EvAddExperience _ | EvUpdatePriorities _ => False
  | _ => True
  end.

(** An event may follow phase [k], and the phase reached after it. *)
Definition level_ok (k : nat) (e : Event) : Prop :=
  match phase e with Some p => (k <= p)%nat | None => True end.
Definition next_phase (k : nat) (e : Event) : nat :=
  match phase e with Some p => p | None => k end.
End Spider.

(** ** Vocabulary of the properties *)

Section Vocabulary.
Context `{Collaborators}.

(** [close_finished_queues] past its first event, and [parse] past
    [close_finished_queues]. *)
Definition close_loop : Eff QSpider unit :=
  s <- get ;;
  for_each (get_active_slots (scheduler s)) (fun slot =>
    s <- get ;;
    if is_acheived_for (goal s) slot then close_slot slot else ret tt).

Definition after_closing (response : Response) : Eff QSpider (list Item) :=
  _debug_expected_vs_got response ;;;
  out <- _parse response ;;
  log_stats ;;;
  maybe_checkpoint ;;;
  s <- get ;;
  let stats := get_stats_item s in
  let stats := <[ "is_seed" := SBool (is_seed (meta response)) ]> stats in
  let stats := <[ "reward" := SFloat out.2 ]> stats in
  let stats := <[ "url" := SStr (url response) ]> stats in
  let stats :=
    <[ "Q" := SFloat (priority_to_score (priority (request response))) ]>
      stats in
  let stats :=
    <[ "eps-policy" :=
         match from_random_policy (req_meta (request response)) with
         | Some b => SBool b
         | None => SNone
         end ]> stats in
  ret (StatsItem stats :: map RequestItem out.1).

Definition is_refresh_event (e : Event) : Prop :=
  match e with
  | EvUpdatePriorities _ | EvPredict _ => True
  | _ => False
  end.

(** From [tr0] on, the trace has only grown, by events that satisfy
    [allowed]. *)
Definition only_emits (allowed : Event -> Prop) (tr0 : list Event)
    (s : QSpider) : Prop :=
  exists new, trace s = tr0 ++ new /\ Forall allowed new.

(** From [tr0] on, the events with a phase came in phase order, none beyond
    phase [k]. *)
Definition in_phase (tr0 : list Event) (k : nat) (s : QSpider) : Prop :=
  exists new,
    trace s = tr0 ++ new
    /\ in_phase_order phase new
    /\ forall e p, e ∈ new -> phase e = Some p -> (p <= k)%nat.

(** The learner and the total reward are as given, and no experience has
    been recorded since [tr0]. *)
Definition learning_untouched (q0 : QLearner) (r0 : Q) (tr0 : list Event)
    (s : QSpider) : Prop :=
  Q_ s = q0 /\ total_reward s = r0
  /\ only_emits (fun e => is_add_experience e = false) tr0 s.

(** The experience of a dead end reached through [response]. *)
Definition terminal_experience (response : Response) : Experience :=
  {| as_t := link_vector (meta response); AS_t1 := None; r_t1 := 0 |}.

(** Nothing in [parse] writes the checkpoint interval. *)
Definition interval_is (i : Z) (_ : nat) (s : QSpider) : Prop :=
  checkpoint_interval s = i.

(** The slot is closed, and no refresh has rewritten it since [tr0]. *)
Definition stays_closed (slot : string) (tr0 : list Event) (s : QSpider)
    : Prop :=
  closed slot s
  /\ only_emits (fun e => e <> EvUpdatePriorities slot) tr0 s.

(** The matrix [_parse] hands to [_links_to_requests], the row of a link
    in it, and the links that survive the seen-URL set. *)
Definition links_matrix_of (links : list Link) (pv : option PageVector)
    : option (list SAV) :=
  Q_join_As
    match links with
    | [] => None
    | _ :: _ => Some (map link_vector_of links)
    end pv.

Definition sav_of (pv : option PageVector) (l : Link) : SAV :=
  join_row (link_vector_of l) pv.

Definition surviving_links (seen : gset string) (links : list Link)
    : list Link :=
  filter (fun l => link_url l ∉ seen) links.

(** The request [_links_to_requests] builds for a surviving link, scored
    under [model]. *)
Definition scored_request (pv : option PageVector) (model : Model)
    (l : Link) : Request :=
  new_request l (sav_of pv l) (score_row model (sav_of pv l)).

(** What [_parse] extracts from a textual response in state [s]. *)
Definition extracted_links (s : QSpider) (response : Response)
    : list Link :=
  deduplicate_local ∅ (page_links response (stay_in_domain s)).

Definition page_vector_for (s : QSpider) (response : Response)
    : option PageVector :=
  if use_pages s =? 0 then None
  else option_map page_vector_of (text response).

(** The part of the controller link scoring reads, apart from the Q
    function. *)
Definition scoring_context (s0 : QSpider) (_ : nat) (s : QSpider) : Prop :=
  seen_urls s = seen_urls s0 /\ G s = G s0
  /\ stay_in_domain s = stay_in_domain s0 /\ use_pages s = use_pages s0.

(** The events of a refresh pass over [slots], given the queues it starts
    from: the rewriting of each slot, and one prediction for a slot that
    holds at least one request with a state-action vector. *)
Definition refresh_events (qs : gmap string (list Request))
    (slots : list string) : list Event :=
  flat_map
    (fun slot =>
       EvUpdatePriorities slot ::
       match vectors_of (default [] (qs !! slot)) with
       | [] => []
       | vs => [EvPredict vs]
       end)
    slots.

(** The frontier after a refresh pass under [model]. *)
Definition refreshed_frontier (model : Model) (sch : Scheduler) : Scheduler :=
  {| queues := map (refreshed model) <$> queues sch;
     closed_slots := closed_slots sch |}.
End Vocabulary.

(** ** A small crawl, for evaluating the definitions

    URLs are short strings whose first character is the domain. Page [a0]
    links to [a1], [a2], [b1]; page [a1] links to [a3] and twice to [a4].
    The Q function is linear, with a single weight as its model, and signals
    a change after every experience. The goal pays 2 for [a1] and holds the
    set of domains it is done with. *)

Module Example.
Definition vectors : Vectors := {| SAV := Z; PageVector := unit |}.
#[local] Existing Instance vectors.

Definition mk_link (u : string) : Link :=
  {| link_url := u; link_inside_text := "" |}.

Definition site (u : string) : list string :=
  if String.eqb u "a0" then ["a1"; "a2"; "b1"]
  else if String.eqb u "a1" then ["a3"; "a4"; "a4"]
  else [].

Definition domain_of (u : string) : string :=
  match u with
  | String c _ => String c EmptyString
  | EmptyString => EmptyString
  end.

Definition collaborators : Collaborators :=
  {| FLOAT_PRIORITY_MULTIPLIER := 10000;
     link_vector_of := fun l => Z.of_nat (String.length (link_url l));
     page_vector_of := fun _ => tt;
     get_domain := domain_of;
     page_links := fun r _ => map mk_link (site (url r));
     Model := Q;
     score_row := fun w v => (w * inject_Z v)%Q;
     join_row := fun v _ => v;
     fit := fun w _ _ => w;
     model_changed := fun _ _ _ => true;
     Goal_ := gset string;
     get_reward := fun _ r => if String.eqb (url r) "a1" then 2%Q else 0%Q;
     response_observed := fun g _ => g;
     is_acheived_for := fun g d => bool_decide (d ∈ g) |}.
#[local] Existing Instance collaborators.

Definition seed_request (u : string) : Request :=
  {| req_url := u; priority := initial_priority; req_meta := empty_meta;
     req_domain := None |}.

(** A derived request for [u] with state-action vector [v], as
    [_links_to_requests] builds it from score [score]. *)
Definition derived_request (u : string) (v : Z) (score : Q) : Request :=
  new_request (mk_link u) v score.

(** A spider with weight [w] and step counter [t], no pending request. *)
Definition spider (w : Q) (t : Z) : QSpider :=
  {| baseline := false; use_pages := 0; stay_in_domain := true;
     checkpoint_interval := 1000; checkpoint_path := None;
     Q_ := {| t_ := t; memory := []; params := w |};
     total_reward := 0; model_changes := 0; goal := ∅; G := None;
     scheduler := {| queues := ∅; closed_slots := ∅ |};
     seen_urls := ∅; response_count := 0; crawler_stats := ∅;
     trace := [] |}.

Definition with_checkpoints (path : option string) (interval : Z)
    (s : QSpider) : QSpider :=
  {| baseline := baseline s; use_pages := use_pages s;
     stay_in_domain := stay_in_domain s;
     checkpoint_interval := interval; checkpoint_path := path;
     Q_ := Q_ s; total_reward := total_reward s;
     model_changes := model_changes s; goal := goal s; G := G s;
     scheduler := scheduler s; seen_urls := seen_urls s;
     response_count := response_count s;
     crawler_stats := crawler_stats s; trace := trace s |}.

Definition with_baseline (b : bool) (s : QSpider) : QSpider :=
  {| baseline := b; use_pages := use_pages s;
     stay_in_domain := stay_in_domain s;
     checkpoint_interval := checkpoint_interval s;
     checkpoint_path := checkpoint_path s;
     Q_ := Q_ s; total_reward := total_reward s;
     model_changes := model_changes s; goal := goal s; G := G s;
     scheduler := scheduler s; seen_urls := seen_urls s;
     response_count := response_count s;
     crawler_stats := crawler_stats s; trace := trace s |}.

(** The fetched page of a request, textual or not. *)
Definition response_to (r : Request) (txt : option string) : Response :=
  {| url := req_url r; request := r; text := txt |}.

(** A frontier with one open slot, holding a seed request and a request
    derived under an older model. *)
Definition pending : QSpider :=
  set_scheduler
    (fun _ =>
       {| queues :=
            {[ "a" := [seed_request "a0"; derived_request "a1" 1 7] ]};
          closed_slots := ∅ |})
    (spider (3 # 50000) 0).

(** The same frontier once the goal is reached for domain "a". *)
Definition reached : QSpider := set_goal (fun _ => {[ "a" ]}) pending.

(** Responses: a page and a dead end, for a seed and for a derived
    request. *)
Definition seed_page : Response :=
  response_to (seed_request "a0") (Some "page").

Definition seed_dead_end : Response := response_to (seed_request "a0") None.

Definition page : Response :=
  response_to (derived_request "a1" 1 7) (Some "page").

Definition dead_end : Response :=
  response_to (derived_request "a1" 1 7) None.

(** The same frontier with a crawl graph of one node, and the response to
    a derived request that is that node. *)
Definition tracked : QSpider :=
  set_G (fun _ => Some {[ 7 := {[ "depth" := NInt 1 ]} ]}) pending.

Definition node_page (nid : option Z) : Response :=
  {| url := "a1";
     request :=
       {| req_url := "a1"; priority := 7;
          req_meta := {| link_vector := Some 1; scheduler_slot := Some "a";
                         node_id := nid; link := None;
                         from_random_policy := None |};
          req_domain := Some "a" |};
     text := Some "page" |}.
End Example.

(** * Properties *)

(** ** The codec *)

Section CodecFacts.
Import Codec.

Lemma Qfloor_bounds (x : Q) :
  (inject_Z (Qfloor x) <= x < inject_Z (Qfloor x) + 1)%Q.
Proof.
  split; [apply Qfloor_le|].
  pose proof (Qlt_floor x) as Hhi. now rewrite inject_Z_plus in Hhi.
Qed.

Lemma round_half_even_near (x : Q) :
  (inject_Z (round_half_even x) - (1 # 2) <= x
   <= inject_Z (round_half_even x) + (1 # 2))%Q.
Proof.
  unfold round_half_even.
  pose proof (Qfloor_bounds x) as Hb.
  destruct (Qcompare_spec (x - inject_Z (Qfloor x)) (1 # 2)) as [E|E|E];
    [destruct (Z.even (Qfloor x))|..]; rewrite ?inject_Z_plus;
    change (inject_Z 1) with 1%Q;
    generalize dependent (inject_Z (Qfloor x)); intros; lra.
Qed.

Lemma round_half_even_range (x : Q) :
  Qfloor x <= round_half_even x <= Qfloor x + 1.
Proof.
  unfold round_half_even.
  destruct (Qcompare _ _); [destruct (Z.even _)|..]; lia.
Qed.

Lemma round_half_even_mono (x y : Q) :
  (x <= y)%Q -> round_half_even x <= round_half_even y.
Proof.
  intros Hxy.
  pose proof (Qfloor_resp_le x y Hxy) as Hf.
  pose proof (round_half_even_range x) as Hrx.
  pose proof (round_half_even_range y) as Hry.
  destruct (Z.eq_dec (Qfloor x) (Qfloor y)) as [E|NE]; [|lia].
  unfold round_half_even in *. rewrite <- E in *.
  destruct (Qcompare_spec (x - inject_Z (Qfloor x)) (1 # 2)) as [E1|E1|E1];
  destruct (Qcompare_spec (y - inject_Z (Qfloor x)) (1 # 2)) as [E2|E2|E2];
  try destruct (Z.even (Qfloor x)); try lia; exfalso;
  generalize dependent (inject_Z (Qfloor x)); intros; lra.
Qed.

Lemma truncate_near (x : Q) :
  (inject_Z (truncate x) - 1 < x < inject_Z (truncate x) + 1)%Q.
Proof.
  destruct x as [n d].
  unfold truncate, Qlt, Qminus, Qplus, Qopp, inject_Z. cbn [Qnum Qden].
  pose proof (Z.quot_rem' n (Z.pos d)) as E.
  assert (Hr : - Z.pos d < Z.rem n (Z.pos d) < Z.pos d).
  { pose proof (Z.rem_bound_abs n (Z.pos d) ltac:(lia)). lia. }
  generalize dependent (Z.rem n (Z.pos d)).
  generalize dependent (Z.quot n (Z.pos d)).
  intros q r E Hr. subst n. rewrite ?Pos.mul_1_r, ?Z.mul_1_r. nia.
Qed.

Lemma inject_Z_pos (M : Z) : 0 < M -> (0 < inject_Z M)%Q.
Proof. intros HM. change 0%Q with (inject_Z 0). now rewrite <- Zlt_Qlt. Qed.

Lemma score_to_priority_mono (M : Z) (s1 s2 : Q) :
  0 < M -> (s1 <= s2)%Q -> score_to_priority M s1 <= score_to_priority M s2.
Proof.
  intros HM Hle. unfold score_to_priority.
  apply round_half_even_mono, Qmult_le_compat_r; [exact Hle|].
  apply Qlt_le_weak, inject_Z_pos, HM.
Qed.

Lemma codec_roundtrip (M : Z) (s : Q) :
  0 < M ->
  (Qabs (priority_to_score M (score_to_priority M s) - s)
   <= 1 / inject_Z M)%Q.
Proof.
  intros HM. unfold priority_to_score, score_to_priority.
  pose proof (round_half_even_near (s * inject_Z M)) as Hn.
  pose proof (inject_Z_pos M HM) as Hm.
  generalize dependent (round_half_even (s * inject_Z M)). intros p Hn.
  generalize dependent (inject_Z M). intros m Hm Hn.
  generalize dependent (inject_Z p). intros ip Hn.
  apply Qabs_Qle_condition.
  assert (E : (ip / m - s == (ip - s * m) / m)%Q) by (field; lra).
  rewrite E. split.
  - setoid_replace (- (1 / m))%Q with ((-1) / m)%Q using relation Qeq
      by (field; lra).
    apply Qmult_le_compat_r; [lra|].
    apply Qlt_le_weak, Qinv_lt_0_compat, Hm.
  - apply Qmult_le_compat_r; [lra|].
    apply Qlt_le_weak, Qinv_lt_0_compat, Hm.
Qed.

(** C9. For a positive multiplier M and all scores: decoding an encoded
    score recovers it within 1/M; encoding is monotone (s1 < s2 gives
    priority(s1) <= priority(s2)); hence a strict order between two
    priorities is the order of the scores they encode. *)
Theorem codec_precision_and_order (M : Z) (s s1 s2 : Q) :
  0 < M ->
  (Qabs (priority_to_score M (score_to_priority M s) - s)
   <= 1 / inject_Z M)%Q
  /\ ((s1 < s2)%Q -> score_to_priority M s1 <= score_to_priority M s2)
  /\ (score_to_priority M s1 < score_to_priority M s2 -> (s1 < s2)%Q).
Proof.
  intros HM. split; [|split].
  - apply codec_roundtrip, HM.
  - intros Hlt. apply score_to_priority_mono; [exact HM|].
    apply Qlt_le_weak, Hlt.
  - intros Hp. apply Qnot_le_lt. intros Hle.
    pose proof (score_to_priority_mono M s2 s1 HM Hle). lia.
Qed.
End CodecFacts.

Section Hoare.
Context {S : Type}.

Lemma hoare_ret {A} (P Q : S -> Prop) (a : A) :
  (forall s, P s -> Q s) -> hoare P (ret a) Q.
Proof. intros HPQ s Hs. now apply HPQ. Qed.

Lemma hoare_raise {A} (P Q : S -> Prop) (e : Exn) :
  (forall s, P s -> Q s) -> hoare P (raise e : Eff S A) Q.
Proof. intros HPQ s Hs. now apply HPQ. Qed.

Lemma hoare_modify (P Q : S -> Prop) (f : S -> S) :
  (forall s, P s -> Q (f s)) -> hoare P (modify f) Q.
Proof. intros HPQ s Hs. now apply HPQ. Qed.

Lemma hoare_bind {A B} (P R Q : S -> Prop) (m : Eff S A) (k : A -> Eff S B) :
  hoare P m R -> (forall s, R s -> Q s) -> (forall a, hoare R (k a) Q) ->
  hoare P (bind m k) Q.
Proof.
  intros Hm HRQ Hk s Hs. unfold bind. specialize (Hm s Hs).
  destruct (m s) as [a s'|e s']; simpl in *; [now apply Hk|now apply HRQ].
Qed.

Lemma hoare_get {A} (P Q : S -> Prop) (k : S -> Eff S A) :
  (forall s0, hoare P (k s0) Q) -> hoare P (bind get k) Q.
Proof. intros Hk s Hs. unfold bind, get. now apply Hk. Qed.

Lemma hoare_post {A} (P R Q : S -> Prop) (m : Eff S A) :
  hoare P m R -> (forall s, R s -> Q s) -> hoare P m Q.
Proof. intros Hm HRQ s Hs. now apply HRQ, Hm. Qed.

Lemma hoare_pre {A} (P R Q : S -> Prop) (m : Eff S A) :
  (forall s, P s -> R s) -> hoare R m Q -> hoare P m Q.
Proof. intros HPR Hm s Hs. now apply Hm, HPR. Qed.

Lemma hoare_for_each {A} (P : S -> Prop) (l : list A) (body : A -> Eff S unit) :
  (forall x, x ∈ l -> hoare P (body x) P) -> hoare P (for_each l body) P.
Proof.
  induction l as [|x l IH]; intros Hbody; simpl.
  - now apply hoare_ret.
  - eapply hoare_bind; [apply Hbody; left|auto|intros _].
    apply IH. intros y Hy. apply Hbody. now right.
Qed.
End Hoare.

Section Refresh.
Context `{Collaborators}.

Lemma assign_indices_snoc (ps : list Z) (indices : list nat) (values : list Q)
    (i : nat) (x : Q) :
  length indices = length values ->
  assign_indices ps (indices ++ [i]) (values ++ [x]) =
  <[ i := Codec.truncate x ]> (assign_indices ps indices values).
Proof.
  intros Hlen. unfold assign_indices.
  rewrite zip_with_app by exact Hlen. simpl. now rewrite foldl_app.
Qed.

Lemma assign_indices_insert (ps : list Z) (indices : list nat) (values : list Q)
    (j : nat) (z : Z) :
  j ∉ indices ->
  assign_indices (<[ j := z ]> ps) indices values =
  <[ j := z ]> (assign_indices ps indices values).
Proof.
  unfold assign_indices. revert ps values.
  induction indices as [|i indices IH]; intros ps values Hj; [reflexivity|].
  destruct values as [|x values]; [reflexivity|]. simpl.
  apply not_elem_of_cons in Hj as [Hji Hj].
  rewrite list_insert_insert_ne by congruence. now apply IH.
Qed.

Lemma refreshed_priority_seed (model : Model) (r : Request) :
  is_seed (req_meta r) = true -> priority (refreshed model r) = priority r.
Proof. unfold is_seed, refreshed. now destruct (link_vector (req_meta r)). Qed.

Lemma insert_fresh_cell {A} (f : A -> Z) (pre : list A) (x : A) (n : nat) :
  (length pre < n)%nat ->
  <[ length pre := f x ]> (map f pre ++ replicate (n - length pre) 0)
  = map f (pre ++ [x]) ++ replicate (n - length (pre ++ [x])) 0.
Proof.
  intros Hlt. rewrite insert_app_r_alt by (rewrite length_map; lia).
  rewrite length_map, Nat.sub_diag, map_app, length_app. simpl.
  replace (n - length pre)%nat with (S (n - (length pre + 1))) by lia.
  simpl. now rewrite <- app_assoc.
Qed.

Lemma scan_requests_spec (model : Model) (n : nat) (pre : list Request) :
  (length pre <= n)%nat ->
  exists ps indices,
    foldl scan_request (replicate n 0, [], []) (imap pair pre)
    = (ps, vectors_of pre, indices)
    /\ length indices = length (vectors_of pre)
    /\ Forall (fun i => (i < length pre)%nat) indices
    /\ assign_indices ps indices
         (map (fun v => (score_row model v * inject_Z FLOAT_PRIORITY_MULTIPLIER)%Q)
              (vectors_of pre))
       = map (fun r => priority (refreshed model r)) pre
         ++ replicate (n - length pre) 0.
Proof.
  induction pre as [|r pre IH] using rev_ind; intros Hn.
  - exists (replicate n 0), []. simpl. rewrite Nat.sub_0_r. auto.
  - rewrite length_app in Hn. simpl in Hn.
    destruct IH as (ps & indices & Hfold & Hlen & Hlt & Hassign); [lia|].
    pose proof (insert_fresh_cell (fun r => priority (refreshed model r))
                  pre r n ltac:(lia)) as Hcell.
    assert (Hlt' : Forall (fun i => (i < length (pre ++ [r]))%nat) indices).
    { eapply Forall_impl; [exact Hlt|]. simpl. intros.
      rewrite length_app. lia. }
    rewrite imap_app, foldl_app, Hfold. simpl. rewrite Nat.add_0_r.
    unfold vectors_of in *. rewrite omap_app. simpl.
    unfold is_seed. unfold refreshed at 1 in Hcell.
    destruct (link_vector (req_meta r)) as [v|] eqn:Ev; simpl.
    + exists ps, (indices ++ [length pre]). split; [reflexivity|].
      split; [rewrite !length_app; simpl; lia|]. split.
      * apply Forall_app. split; [exact Hlt'|].
        constructor; [|constructor]. rewrite length_app. simpl. lia.
      * rewrite map_app. simpl.
        rewrite assign_indices_snoc by now rewrite length_map.
        rewrite Hassign. exact Hcell.
    + exists (<[ length pre := priority r ]> ps), indices.
      rewrite !app_nil_r. split; [reflexivity|]. split; [exact Hlen|].
      split; [exact Hlt'|].
      rewrite assign_indices_insert.
      2:{ intros Hin. rewrite Forall_forall in Hlt. apply Hlt in Hin. lia. }
      rewrite Hassign. exact Hcell.
Qed.

Lemma request_priorities_eq (requests : list Request) (s : QSpider) :
  request_priorities requests s =
  Return (map (fun r => priority (refreshed (params (Q_ s)) r)) requests)
         (note_prediction requests s).
Proof.
  unfold request_priorities, note_prediction.
  destruct (scan_requests_spec (params (Q_ s)) (length requests) requests)
    as (ps & indices & Hfold & Hlen & _ & Hassign); [lia|].
  rewrite Hfold. rewrite Nat.sub_diag, app_nil_r in Hassign.
  destruct (vectors_of requests) as [|v vs] eqn:Ev.
  - destruct indices; [|discriminate]. unfold ret. f_equal. exact Hassign.
  - unfold bind, Q_predict, emit, modify, get, ret. simpl. f_equal.
    rewrite <- Hassign. f_equal. now rewrite map_map.
Qed.

Lemma refreshed_replace (model : Model) (requests : list Request) :
  zip_with replace_priority requests
    (map (fun r => priority (refreshed model r)) requests)
  = map (refreshed model) requests.
Proof.
  induction requests as [|r requests IH]; [reflexivity|].
  simpl. rewrite IH. f_equal.
  unfold refreshed. destruct (link_vector (req_meta r)); [reflexivity|].
  now destruct r.
Qed.

Lemma note_prediction_scheduler requests s :
  scheduler (note_prediction requests s) = scheduler s.
Proof. unfold note_prediction. now destruct (vectors_of requests). Qed.

Lemma note_prediction_Q requests s :
  Q_ (note_prediction requests s) = Q_ s.
Proof. unfold note_prediction. now destruct (vectors_of requests). Qed.

Lemma update_all_priorities_eq (slot : string) (requests : list Request)
    (s : QSpider) :
  queues (scheduler s) !! slot = Some requests ->
  update_all_priorities slot request_priorities s =
  Return tt
    (set_scheduler
       (put_queue slot (map (refreshed (params (Q_ s))) requests))
       (note_prediction requests
          (set_trace (fun tr => tr ++ [EvUpdatePriorities slot]) s))).
Proof.
  intros Hq. unfold update_all_priorities, bind, get. rewrite Hq.
  unfold emit, modify. rewrite request_priorities_eq. simpl.
  now rewrite refreshed_replace.
Qed.

Lemma update_all_priorities_missing (slot : string) (s : QSpider) :
  queues (scheduler s) !! slot = None ->
  update_all_priorities slot request_priorities s = Raise (KeyError slot) s.
Proof.
  intros Hq. unfold update_all_priorities, bind, get. now rewrite Hq.
Qed.
End Refresh.

Create HintDb frame.

Section ParseTail.
Context `{Collaborators}.

Lemma close_finished_queues_unfold :
  close_finished_queues = (emit EvCloseFinishedQueues ;;; close_loop).
Proof. reflexivity. Qed.

Lemma parse_unfold (response : Response) :
  parse response =
  (increase_response_count ;;; close_finished_queues ;;;
   after_closing response).
Proof. reflexivity. Qed.

Lemma parse_entered (response : Response) (s : QSpider) :
  parse response s =
  (close_loop ;;; after_closing response)
    (set_trace (fun tr => tr ++ [EvCloseFinishedQueues])
       (set_response_count (fun n => n + 1)
          (set_trace (fun tr => tr ++ [EvResponseCount]) s))).
Proof. reflexivity. Qed.
End ParseTail.

Section Frame.
Context `{Collaborators}.
Variable P : nat -> QSpider -> Prop.

Hypothesis P_mono : forall k k' s, (k <= k')%nat -> P k s -> P k' s.
Hypothesis P_emit : forall e k s,
  harmless e -> level_ok k e -> P k s ->
  P (next_phase k e) (set_trace (fun tr => tr ++ [e]) s).
Hypothesis P_seen : forall f k s, P k s -> P k (set_seen_urls f s).
Hypothesis P_count : forall f k s, P k s -> P k (set_response_count f s).
Hypothesis P_changes : forall f k s, P k s -> P k (set_model_changes f s).
Hypothesis P_G : forall f k s, P k s -> P k (set_G f s).
Hypothesis P_goal : forall f k s, P k s -> P k (set_goal f s).
Hypothesis P_total : forall f k s, P k s -> P k (set_total_reward f s).
Hypothesis P_Q : forall f k s, P k s -> P k (set_Q_ f s).
Hypothesis P_emit_exp : forall x k s,
  (k <= 2)%nat -> P k s ->
  P 2%nat (set_trace (fun tr => tr ++ [EvAddExperience x]) s).
Hypothesis P_emit_upd : forall slot k s,
  (k <= 3)%nat -> is_Some (queues (scheduler s) !! slot) -> P k s ->
  P 3%nat (set_trace (fun tr => tr ++ [EvUpdatePriorities slot]) s).
Hypothesis P_close : forall slot k s,
  P k s -> P k (set_scheduler (queue_close_slot slot) s).
Hypothesis P_update : forall slot q k s,
  is_Some (queues (scheduler s) !! slot) -> P k s ->
  P k (set_scheduler (put_queue slot q) s).

Ltac fr_mono :=
  let s := fresh "s" in let Hs := fresh "Hs" in
  intros s Hs; first [exact Hs | eapply P_mono; [|exact Hs]; simpl; lia].

Ltac fr_op := solve [eauto with frame].

Ltac fr :=
  lazymatch goal with
  | |- hoare _ (bind get _) _ => apply hoare_get; intros ?; fr
  | |- hoare _ (bind _ _) _ =>
      eapply hoare_bind; [fr_op | fr_mono | intros ?; fr]
  | |- hoare _ (ret _) _ => apply hoare_ret; fr_mono
  | |- hoare _ (raise _) _ => apply hoare_raise; fr_mono
  | |- hoare _ (if ?b then _ else _) _ => destruct b; fr
  | |- hoare _ (match ?x with _ => _ end) _ => destruct x; fr
  | |- hoare _ _ _ => eapply hoare_post; [fr_op | fr_mono]
  end.

Lemma fr_emit (e : Event) (k : nat) :
  harmless e -> level_ok k e -> hoare (P k) (emit e) (P (next_phase k e)).
Proof. intros He Hk s Hs. now apply P_emit. Qed.

Hint Extern 1 (harmless _) => exact I : frame.
Hint Extern 1 (level_ok _ _) => (unfold level_ok; simpl; first [exact I | lia]) : frame.
Hint Extern 1 (_ <= _)%nat => lia : frame.
Hint Resolve fr_emit : frame.

Lemma fr_ret {A} (a : A) (k : nat) : hoare (P k) (ret a) (P k).
Proof. now apply hoare_ret. Qed.
Hint Resolve fr_ret : frame.

Lemma fr_Q_predict (AS : list SAV) (k : nat) :
  hoare (P k) (Q_predict AS) (P k).
Proof. unfold Q_predict. fr. Qed.
Hint Resolve fr_Q_predict : frame.

Lemma fr_seen f k : hoare (P k) (modify (set_seen_urls f)) (P k).
Proof. apply hoare_modify. auto. Qed.
Lemma fr_count f k : hoare (P k) (modify (set_response_count f)) (P k).
Proof. apply hoare_modify. auto. Qed.
Lemma fr_changes f k : hoare (P k) (modify (set_model_changes f)) (P k).
Proof. apply hoare_modify. auto. Qed.
Lemma fr_G f k : hoare (P k) (modify (set_G f)) (P k).
Proof. apply hoare_modify. auto. Qed.
Lemma fr_goal f k : hoare (P k) (modify (set_goal f)) (P k).
Proof. apply hoare_modify. auto. Qed.
Lemma fr_total f k : hoare (P k) (modify (set_total_reward f)) (P k).
Proof. apply hoare_modify. auto. Qed.
Lemma fr_Q f k : hoare (P k) (modify (set_Q_ f)) (P k).
Proof. apply hoare_modify. auto. Qed.
Hint Resolve fr_seen fr_count fr_changes fr_G fr_goal fr_total fr_Q : frame.

Lemma fr_increase_response_count k :
  hoare (P k) increase_response_count (P k).
Proof. unfold increase_response_count. fr. Qed.

Lemma fr_close_slot slot k :
  (k <= 1)%nat -> hoare (P k) (close_slot slot) (P 1%nat).
Proof.
  intros Hk. unfold close_slot.
  eapply hoare_bind; [fr_op|fr_mono|intros _].
  apply hoare_modify. intros s Hs. now apply P_close.
Qed.
Hint Resolve fr_close_slot : frame.

Lemma fr_close_loop : hoare (P 1%nat) close_loop (P 1%nat).
Proof.
  unfold close_loop.
  apply hoare_get. intros s0. apply hoare_for_each. intros slot _. fr.
Qed.

Lemma fr_close_finished_queues k :
  (k <= 1)%nat -> hoare (P k) close_finished_queues (P 1%nat).
Proof.
  intros Hk. rewrite close_finished_queues_unfold.
  eapply hoare_bind; [fr_op|fr_mono|intros _]. apply fr_close_loop.
Qed.

Lemma fr_debug response k :
  hoare (P k) (_debug_expected_vs_got response) (P k).
Proof. unfold _debug_expected_vs_got. fr. Qed.

Lemma fr_update_node response data k :
  hoare (P k) (update_node response data) (P k).
Proof. unfold update_node. fr. Qed.
Hint Resolve fr_update_node : frame.

Lemma fr_update_all_priorities slot k :
  (k <= 3)%nat ->
  hoare (P k) (update_all_priorities slot request_priorities) (P 3%nat).
Proof.
  intros Hk s Hs.
  destruct (queues (scheduler s) !! slot) as [requests|] eqn:Hq.
  - rewrite (update_all_priorities_eq _ _ _ Hq). simpl.
    apply P_update.
    { rewrite note_prediction_scheduler. simpl. now rewrite Hq. }
    pose proof (P_emit_upd slot k s Hk ltac:(now rewrite Hq) Hs) as H3.
    unfold note_prediction. destruct (vectors_of requests); [exact H3|].
    now apply (P_emit (EvPredict _) 3%nat).
  - rewrite (update_all_priorities_missing _ _ Hq). simpl.
    now apply (P_mono k).
Qed.

Lemma fr_recalculate k :
  (k <= 3)%nat -> hoare (P k) recalculate_request_priorities (P 3%nat).
Proof.
  intros Hk. unfold recalculate_request_priorities.
  eapply hoare_bind; [fr_op|fr_mono|intros _].
  apply hoare_get. intros s0. destruct (baseline s0); [fr|].
  apply hoare_for_each. intros slot _.
  now apply fr_update_all_priorities.
Qed.
Hint Resolve fr_recalculate : frame.

Lemma fr_py_mod a b k : hoare (P k) (py_mod a b) (P k).
Proof. unfold py_mod. fr. Qed.
Hint Resolve fr_py_mod : frame.

Lemma fr_on_model_changed k :
  (k <= 3)%nat -> hoare (P k) on_model_changed (P 3%nat).
Proof. intros Hk. unfold on_model_changed. fr. Qed.
Hint Resolve fr_on_model_changed : frame.

Lemma fr_emit_exp x k :
  (k <= 2)%nat -> hoare (P k) (emit (EvAddExperience x)) (P 2%nat).
Proof. intros Hk s Hs. now apply (P_emit_exp x k). Qed.
Hint Resolve fr_emit_exp : frame.

Lemma fr_Q_add_experience x k :
  (k <= 2)%nat ->
  hoare (P k) (Q_add_experience on_model_changed x) (P 3%nat).
Proof. intros Hk. unfold Q_add_experience. fr. Qed.
Hint Resolve fr_Q_add_experience : frame.

Lemma fr_deduplicate links k :
  (k <= 4)%nat ->
  hoare (P k) (deduplicate_links_enumerated links) (P 4%nat).
Proof. intros Hk. unfold deduplicate_links_enumerated. fr. Qed.
Hint Resolve fr_deduplicate : frame.

Lemma fr_select_rows m indices k :
  hoare (P k) (select_rows m indices) (P k).
Proof. unfold select_rows. fr. Qed.
Hint Resolve fr_select_rows : frame.

Lemma fr_links_to_requests links m k :
  (k <= 4)%nat -> hoare (P k) (_links_to_requests links m) (P 4%nat).
Proof. intros Hk. unfold _links_to_requests. fr. Qed.
Hint Resolve fr_links_to_requests : frame.

Lemma fr_get_page_vector response k :
  hoare (P k) (_get_page_vector response) (P k).
Proof. unfold _get_page_vector. fr. Qed.
Hint Resolve fr_get_page_vector : frame.

Lemma fr_extract_links response k :
  hoare (P k) (_extract_links response) (P k).
Proof. unfold _extract_links. fr. Qed.
Hint Resolve fr_extract_links : frame.

Lemma fr_parse_seed response k :
  is_seed (meta response) = true -> (k <= 4)%nat ->
  hoare (P k) (_parse response) (P 4%nat).
Proof.
  intros Hseed Hk. unfold _parse. rewrite Hseed.
  destruct (has_text response); simpl; fr.
Qed.

Lemma fr_parse_ response k :
  (k <= 2)%nat -> hoare (P k) (_parse response) (P 4%nat).
Proof.
  intros Hk. unfold _parse.
  destruct (is_seed (meta response)), (has_text response); simpl;
    try solve [fr].
  eapply hoare_bind; [fr_op|fr_mono|intros ?].
  eapply hoare_bind; [fr_op|fr_mono|intros ?].
  eapply (hoare_bind _ (P 3%nat)); [fr|fr_mono|intros ?; fr].
Qed.

Lemma fr_save_params k :
  (k <= 5)%nat -> hoare (P k) _save_params_json (P 5%nat).
Proof. intros Hk. unfold _save_params_json. fr. Qed.
Hint Resolve fr_save_params : frame.

Lemma fr_dump_crawl_graph path k :
  (k <= 5)%nat -> hoare (P k) (dump_crawl_graph path) (P 5%nat).
Proof. intros Hk. unfold dump_crawl_graph. fr. Qed.
Hint Resolve fr_dump_crawl_graph : frame.

Lemma fr_dump_policy path k :
  (k <= 5)%nat -> hoare (P k) (dump_policy path) (P 5%nat).
Proof. intros Hk. unfold dump_policy. fr. Qed.
Hint Resolve fr_dump_policy : frame.

Lemma fr_do_checkpoint k :
  (k <= 5)%nat -> hoare (P k) do_checkpoint (P 5%nat).
Proof. intros Hk. unfold do_checkpoint. fr. Qed.
Hint Resolve fr_do_checkpoint : frame.

Lemma fr_maybe_checkpoint k :
  (k <= 5)%nat -> hoare (P k) maybe_checkpoint (P 5%nat).
Proof. intros Hk. unfold maybe_checkpoint. fr. Qed.

Lemma fr_log_stats k : hoare (P k) log_stats (P k).
Proof. unfold log_stats. fr. Qed.

Hint Resolve fr_increase_response_count fr_close_finished_queues fr_debug
  fr_maybe_checkpoint fr_log_stats : frame.

Lemma fr_after_closing_with response k :
  (forall j, (j <= 1)%nat -> hoare (P j) (_parse response) (P 4%nat)) ->
  (k <= 1)%nat -> hoare (P k) (after_closing response) (P 5%nat).
Proof. intros Hparse Hk. unfold after_closing. fr. Qed.

Lemma fr_parse_tail_with response :
  (forall j, (j <= 1)%nat -> hoare (P j) (_parse response) (P 4%nat)) ->
  hoare (P 1%nat) (close_loop ;;; after_closing response) (P 5%nat).
Proof.
  intros Hparse.
  eapply hoare_bind; [apply fr_close_loop|fr_mono|intros _].
  now apply fr_after_closing_with.
Qed.

Lemma fr_parse_with response k :
  (forall j, (j <= 1)%nat -> hoare (P j) (_parse response) (P 4%nat)) ->
  (k <= 1)%nat -> hoare (P k) (parse response) (P 5%nat).
Proof.
  intros Hparse Hk. rewrite parse_unfold.
  pose proof (fr_after_closing_with response) as Htail. fr.
Qed.
End Frame.

Section RefreshPass.
Context `{Collaborators}.

Lemma note_prediction_trace requests s :
  exists new, trace (note_prediction requests s) = trace s ++ new
              /\ Forall is_refresh_event new.
Proof.
  unfold note_prediction. destruct (vectors_of requests).
  - exists []. now rewrite app_nil_r.
  - eexists. split; [reflexivity|]. now repeat constructor.
Qed.

Lemma refresh_loop (slots : list string) :
  NoDup slots ->
  forall s,
    (forall slot, slot ∈ slots -> is_Some (queues (scheduler s) !! slot)) ->
    exists s' new,
      for_each slots
        (fun slot => update_all_priorities slot request_priorities) s
      = Return tt s'
      /\ Q_ s' = Q_ s
      /\ closed_slots (scheduler s') = closed_slots (scheduler s)
      /\ trace s' = trace s ++ new /\ Forall is_refresh_event new
      /\ forall slot,
           queues (scheduler s') !! slot =
           if decide (slot ∈ slots)
           then map (refreshed (params (Q_ s))) <$> queues (scheduler s) !! slot
           else queues (scheduler s) !! slot.
Proof.
  induction 1 as [|slot slots Hnotin Hnodup IH]; intros s Hopen.
  - exists s, []. simpl. rewrite app_nil_r. repeat split; auto.
  - destruct (Hopen slot ltac:(left)) as [q Hq].
    simpl. unfold bind at 1. rewrite (update_all_priorities_eq _ _ _ Hq).
    set (s1 := set_scheduler _ _).
    assert (Hsch : queues (scheduler s1)
                   = <[ slot := map (refreshed (params (Q_ s))) q ]>
                       (queues (scheduler s))).
    { unfold s1. simpl. now rewrite note_prediction_scheduler. }
    assert (HQ : Q_ s1 = Q_ s).
    { unfold s1. simpl. now rewrite note_prediction_Q. }
    assert (Hcl : closed_slots (scheduler s1) = closed_slots (scheduler s)).
    { unfold s1. simpl. now rewrite note_prediction_scheduler. }
    destruct (note_prediction_trace q
                (set_trace (fun tr => tr ++ [EvUpdatePriorities slot]) s))
      as (new1 & Htr1 & Hnew1).
    assert (Htr : trace s1 = trace s ++ EvUpdatePriorities slot :: new1).
    { unfold s1. simpl. rewrite Htr1. simpl. now rewrite <- app_assoc. }
    destruct (IH s1) as (s' & new & Hrun & HQ' & Hcl' & Htr' & Hnew & Hqs).
    { intros x Hx. rewrite Hsch. apply lookup_insert_is_Some'. right.
      apply Hopen. now right. }
    exists s', (EvUpdatePriorities slot :: new1 ++ new).
    split; [exact Hrun|]. split; [congruence|]. split; [congruence|].
    split. { rewrite Htr', Htr. now rewrite <- app_assoc. }
    split. { constructor; [exact I|]. now apply Forall_app. }
    intros x. rewrite Hqs, Hsch, HQ.
    destruct (decide (x = slot)) as [->|Hne].
    + rewrite decide_False by exact Hnotin.
      rewrite decide_True by left.
      now rewrite lookup_insert_eq, Hq.
    + rewrite lookup_insert_ne by congruence.
      destruct (decide (x ∈ slots)) as [Hin|Hout].
      * rewrite decide_True by now right. reflexivity.
      * rewrite decide_False; [reflexivity|].
        intros Hin. apply elem_of_cons in Hin as [?|?]; congruence.
Qed.

Lemma recalculate_spec (s : QSpider) :
  baseline s = false ->
  exists s' new,
    recalculate_request_priorities s = Return tt s'
    /\ Q_ s' = Q_ s
    /\ closed_slots (scheduler s') = closed_slots (scheduler s)
    /\ trace s' = trace s ++ EvRecalculate :: new
    /\ Forall is_refresh_event new
    /\ queues (scheduler s')
       = map (refreshed (params (Q_ s))) <$> queues (scheduler s).
Proof.
  intros Hb. unfold recalculate_request_priorities, bind at 1, emit, modify.
  unfold bind at 1, get. simpl. rewrite Hb.
  set (s0 := set_trace _ s).
  destruct (refresh_loop (get_active_slots (scheduler s))
              (NoDup_elements _) s0)
    as (s' & new & Hrun & HQ & Hcl & Htr & Hnew & Hqs).
  { intros slot Hin. unfold get_active_slots in Hin.
    apply elem_of_elements, elem_of_dom in Hin. exact Hin. }
  exists s', new. split; [exact Hrun|]. split; [exact HQ|].
  split; [exact Hcl|]. split.
  { rewrite Htr. unfold s0. simpl. now rewrite <- app_assoc. }
  split; [exact Hnew|].
  apply map_eq. intros slot. rewrite Hqs, lookup_fmap. simpl.
  destruct (decide (slot ∈ get_active_slots (scheduler s))) as [Hin|Hout];
    [reflexivity|].
  unfold get_active_slots in Hout.
  rewrite elem_of_elements, not_elem_of_dom in Hout. now rewrite Hout.
Qed.

End RefreshPass.

(** ** Traces *)

Section Traces.
Context `{Collaborators}.

Lemma only_emits_start allowed (s : QSpider) :
  only_emits allowed (trace s) s.
Proof. exists []. now rewrite app_nil_r. Qed.

Lemma only_emits_emit allowed tr0 (e : Event) (s : QSpider) :
  allowed e -> only_emits allowed tr0 s ->
  only_emits allowed tr0 (set_trace (fun tr => tr ++ [e]) s).
Proof.
  intros He (new & Htr & Hnew). exists (new ++ [e]). simpl. split.
  - now rewrite Htr, <- app_assoc.
  - apply Forall_app. split; [exact Hnew|]. now constructor.
Qed.

Lemma only_emits_new_events {A} allowed (m : Eff QSpider A) (s : QSpider) :
  only_emits allowed (trace s) (final_state (m s)) ->
  trace (final_state (m s)) = trace s ++ new_events m s
  /\ Forall allowed (new_events m s).
Proof.
  intros (new & Htr & Hnew). unfold new_events.
  now rewrite Htr, drop_app_length.
Qed.

Lemma in_phase_mono tr0 (k k' : nat) (s : QSpider) :
  (k <= k')%nat -> in_phase tr0 k s -> in_phase tr0 k' s.
Proof.
  intros Hk (new & Htr & Hord & Hmax). exists new.
  split; [exact Htr|]. split; [exact Hord|].
  intros e p He Hp. specialize (Hmax e p He Hp). lia.
Qed.

Lemma in_phase_emit tr0 (e : Event) (k : nat) (s : QSpider) :
  level_ok k e -> in_phase tr0 k s ->
  in_phase tr0 (next_phase k e) (set_trace (fun tr => tr ++ [e]) s).
Proof.
  unfold level_ok, next_phase.
  intros Hlevel (new & Htr & Hord & Hmax). exists (new ++ [e]). simpl.
  split; [now rewrite Htr, <- app_assoc|]. split.
  - intros i j e1 e2 p1 p2 Hi Hj Hp1 Hp2 Hlt.
    apply lookup_app_Some in Hi as [Hi|[Hi1 Hi2]];
    apply lookup_app_Some in Hj as [Hj|[Hj1 Hj2]].
    + now apply (Hord i j e1 e2 p1 p2).
    + apply lookup_lt_Some in Hi. lia.
    + apply list_lookup_singleton_Some in Hi2 as [_ <-].
      apply list_elem_of_lookup_2 in Hj.
      specialize (Hmax e2 p2 Hj Hp2). rewrite Hp1 in Hlevel. lia.
    + apply list_lookup_singleton_Some in Hi2 as [_ <-].
      apply list_lookup_singleton_Some in Hj2 as [_ <-].
      rewrite Hp1 in Hp2. injection Hp2 as ->. lia.
  - intros e' p He' Hp. apply elem_of_app in He' as [He'|He'].
    + specialize (Hmax e' p He' Hp).
      destruct (phase e); lia.
    + apply list_elem_of_singleton in He' as ->. rewrite Hp. lia.
Qed.

Ltac same_trace :=
  let H := fresh in intros; unfold in_phase, only_emits in *; simpl; assumption.

Lemma parse_in_phase (response : Response) (tr0 : list Event) :
  hoare (in_phase tr0 0) (parse response) (in_phase tr0 5).
Proof.
  apply (fr_parse_with (in_phase tr0)) with (k := 0%nat); try same_trace; try lia.
  - apply in_phase_mono.
  - intros e k s _. apply in_phase_emit.
  - intros j Hj. apply (fr_parse_ (in_phase tr0)) with (k := j); try same_trace; try lia.
    + apply in_phase_mono.
    + intros e k s _. apply in_phase_emit.
    + intros x k s Hk. now apply (in_phase_emit tr0 (EvAddExperience x)).
    + intros slot k s Hk _.
      now apply (in_phase_emit tr0 (EvUpdatePriorities slot)).
Qed.

Lemma parse_only_emits (response : Response) (tr0 : list Event) :
  hoare (only_emits (fun _ => True) tr0) (close_loop ;;; after_closing response)
        (only_emits (fun _ => True) tr0).
Proof.
  apply (fr_parse_tail_with (fun _ => only_emits (fun _ => True) tr0));
    try same_trace; auto.
  - intros e k s _ _. now apply only_emits_emit.
  - intros j Hj.
    apply (fr_parse_ (fun _ => only_emits (fun _ => True) tr0))
      with (k := j); try same_trace; try lia; auto.
    + intros e k s _ _. now apply only_emits_emit.
    + intros x k s _. now apply only_emits_emit.
    + intros slot k s _ _. now apply only_emits_emit.
Qed.

(** C3 (as the code has it). Processing one response enters slot closing
    first, and the phases it goes through come in this order: slot
    closing, experience recording, refresh (trigger check and pass), link
    scoring, checkpoint check; [parse] runs through them before it
    returns or raises. *)
Theorem parse_phase_order (response : Response) (s : QSpider) :
  (exists rest,
     new_events (parse response) s
     = EvResponseCount :: EvCloseFinishedQueues :: rest)
  /\ in_phase_order phase (new_events (parse response) s).
Proof.
  split.
  - unfold new_events. rewrite parse_entered.
    set (s1 := set_trace _ _).
    destruct (parse_only_emits response (trace s1) s1
                (only_emits_start _ s1)) as (rest & Htr & _).
    exists rest. rewrite Htr. unfold s1. simpl.
    rewrite <- !app_assoc. now rewrite drop_app_length.
  - destruct (parse_in_phase response (trace s) s) as (new & Htr & Hord & _).
    { exists []. rewrite app_nil_r. split; [reflexivity|]. split.
      - intros i j e1 e2 p1 p2 Hi. now rewrite lookup_nil in Hi.
      - intros e p He. now apply elem_of_nil in He. }
    unfold new_events. now rewrite Htr, drop_app_length.
Qed.
End Traces.

(** ** Experience recording *)

Section Recording.
Context `{Collaborators}.

Lemma returned_bind {S A B} (m : Eff S A) (k : A -> Eff S B) (s : S) (b : B) :
  returned (bind m k s) = Some b ->
  exists a s', m s = Return a s' /\ returned (k a s') = Some b.
Proof.
  unfold bind. destruct (m s) as [a s'|e s']; [eauto|discriminate].
Qed.

Lemma count_app (p : Event -> bool) (tr1 tr2 : list Event) :
  count p (tr1 ++ tr2) = (count p tr1 + count p tr2)%nat.
Proof. unfold count. now rewrite filter_app, length_app. Qed.

Lemma count_none (p : Event -> bool) (tr : list Event) :
  Forall (fun e => p e = false) tr -> count p tr = 0%nat.
Proof.
  unfold count. induction 1 as [|e tr He _ IH]; [reflexivity|].
  rewrite filter_cons_False by congruence. exact IH.
Qed.

Lemma learning_untouched_emit q0 r0 tr0 (e : Event) (s : QSpider) :
  is_add_experience e = false -> learning_untouched q0 r0 tr0 s ->
  learning_untouched q0 r0 tr0 (set_trace (fun tr => tr ++ [e]) s).
Proof.
  intros He (HQ & Hr & Htr). repeat split; [exact HQ|exact Hr|].
  now apply only_emits_emit.
Qed.

Lemma harmless_not_experience (e : Event) :
  harmless e -> is_add_experience e = false.
Proof. now destruct e. Qed.

Ltac untouched :=
  intros; unfold learning_untouched, only_emits in *; simpl; assumption.

Lemma on_model_changed_untouched q0 r0 tr0 :
  hoare (learning_untouched q0 r0 tr0) on_model_changed
        (learning_untouched q0 r0 tr0).
Proof.
  apply (fr_on_model_changed (fun _ => learning_untouched q0 r0 tr0))
    with (k := 0%nat); try untouched; try lia.
  - intros e k s He _. apply learning_untouched_emit.
    now apply harmless_not_experience.
  - intros slot k s _ _. now apply learning_untouched_emit.
Qed.

Lemma update_node_untouched q0 r0 tr0 response data :
  hoare (learning_untouched q0 r0 tr0) (update_node response data)
        (learning_untouched q0 r0 tr0).
Proof.
  apply (fr_update_node (fun _ => learning_untouched q0 r0 tr0))
    with (k := 0%nat); untouched.
Qed.

Lemma seed_parse_untouched q0 r0 tr0 (response : Response) :
  is_seed (meta response) = true ->
  hoare (learning_untouched q0 r0 tr0) (_parse response)
        (learning_untouched q0 r0 tr0).
Proof.
  intros Hseed.
  apply (fr_parse_seed (fun _ => learning_untouched q0 r0 tr0))
    with (k := 0%nat); try untouched; try lia; auto.
  intros e k s He _. apply learning_untouched_emit.
  now apply harmless_not_experience.
Qed.

Lemma seed_response_untouched q0 r0 tr0 (response : Response) :
  is_seed (meta response) = true ->
  hoare (learning_untouched q0 r0 tr0) (parse response)
        (learning_untouched q0 r0 tr0).
Proof.
  intros Hseed.
  apply (fr_parse_with (fun _ => learning_untouched q0 r0 tr0))
    with (k := 0%nat); try untouched; try lia; auto.
  - intros e k s He _. apply learning_untouched_emit.
    now apply harmless_not_experience.
  - intros j _. now apply seed_parse_untouched.
Qed.

Lemma learning_untouched_start (s : QSpider) :
  learning_untouched (Q_ s) (total_reward s) (trace s) s.
Proof. repeat split. apply only_emits_start. Qed.

Lemma learning_untouched_run {A} (m : Eff QSpider A) (s : QSpider) :
  learning_untouched (Q_ s) (total_reward s) (trace s) (final_state (m s)) ->
  Q_ (final_state (m s)) = Q_ s
  /\ total_reward (final_state (m s)) = total_reward s
  /\ count is_add_experience (new_events m s) = 0%nat.
Proof.
  intros (HQ & Hr & Htr). split; [exact HQ|]. split; [exact Hr|].
  apply only_emits_new_events in Htr as [_ Hnew]. now apply count_none.
Qed.

(** C7. A seed response records no experience and accrues no reward: after
    [_parse], and after the whole of [parse], the learner (step counter,
    replay memory, parameters) and the running total reward are what they
    were and no experience was handed to the Q function, whatever requests
    the response yields. *)
Theorem seed_response_records_nothing (response : Response) (s : QSpider) :
  is_seed (meta response) = true ->
  (Q_ (final_state (_parse response s)) = Q_ s
   /\ total_reward (final_state (_parse response s)) = total_reward s
   /\ count is_add_experience (new_events (_parse response) s) = 0%nat)
  /\ (Q_ (final_state (parse response s)) = Q_ s
      /\ total_reward (final_state (parse response s)) = total_reward s
      /\ count is_add_experience (new_events (parse response) s) = 0%nat).
Proof.
  intros Hseed. split; apply learning_untouched_run.
  - apply seed_parse_untouched; [exact Hseed|apply learning_untouched_start].
  - apply seed_response_untouched;
      [exact Hseed|apply learning_untouched_start].
Qed.
End Recording.

(** ** The refresh trigger *)

Section Trigger.
Context `{Collaborators}.

Lemma on_model_changed_eq (s : QSpider) :
  on_model_changed s =
  recalculate_request_priorities
    (set_model_changes (fun n => n + 1)
       (set_trace (fun tr => tr ++ [EvModelChanged]) s)).
Proof.
  unfold on_model_changed, bind, emit, modify, get, py_mod. simpl.
  now rewrite Z.mod_1_r.
Qed.

Lemma recalculate_baseline (s : QSpider) :
  baseline s = true ->
  recalculate_request_priorities s
  = Return tt (set_trace (fun tr => tr ++ [EvRecalculate]) s).
Proof.
  intros Hb. unfold recalculate_request_priorities, bind, emit, modify, get.
  simpl. now rewrite Hb.
Qed.

Lemma refresh_event_not_recalculate (new : list Event) :
  Forall is_refresh_event new -> count is_recalculate new = 0%nat.
Proof.
  intros Hnew. apply count_none. eapply Forall_impl; [exact Hnew|].
  now intros [].
Qed.

Lemma on_model_changed_returns (s : QSpider) :
  exists s', on_model_changed s = Return tt s'.
Proof.
  rewrite on_model_changed_eq. set (s1 := set_model_changes _ _).
  destruct (baseline s1) eqn:Hb.
  - rewrite (recalculate_baseline s1 Hb). eauto.
  - destruct (recalculate_spec s1 Hb) as (s' & _ & Hrun & _). eauto.
Qed.

(** C8. Every call of [on_model_changed], whatever the number of changes
    counted so far, makes exactly one refresh pass
    ([recalculate_request_priorities] is entered once) and returns; in
    baseline mode that pass makes no prediction and leaves the frontier as
    it was; otherwise it rewrites every open slot from the current
    parameters. *)
Theorem model_change_refreshes_once (s : QSpider) :
  exists s' new,
    on_model_changed s = Return tt s'
    /\ new_events on_model_changed s
       = EvModelChanged :: EvRecalculate :: new
    /\ count is_recalculate (new_events on_model_changed s) = 1%nat
    /\ Q_ s' = Q_ s
    /\ (baseline s = true -> new = [] /\ scheduler s' = scheduler s)
    /\ (baseline s = false ->
        queues (scheduler s')
        = map (refreshed (params (Q_ s))) <$> queues (scheduler s)).
Proof.
  unfold new_events. rewrite on_model_changed_eq.
  set (s1 := set_model_changes _ _).
  destruct (baseline s) eqn:Hb.
  - rewrite (recalculate_baseline s1 Hb). eexists _, []. simpl.
    rewrite <- app_assoc, drop_app_length. simpl.
    repeat split; auto; discriminate.
  - destruct (recalculate_spec s1 Hb)
      as (s' & new & Hrun & HQ & _ & Htr & Hnew & Hqs).
    exists s', new. rewrite Hrun. simpl. rewrite Htr. unfold s1. simpl.
    rewrite <- app_assoc, drop_app_length. simpl.
    split; [reflexivity|]. split; [reflexivity|]. split.
    { change (EvModelChanged :: EvRecalculate :: new)
        with ([EvModelChanged; EvRecalculate] ++ new).
      rewrite count_app, (refresh_event_not_recalculate new Hnew).
      reflexivity. }
    split; [exact HQ|]. split; [discriminate|]. intros _. exact Hqs.
Qed.

Lemma Q_add_experience_eq (x : Experience) (s : QSpider) :
  Q_add_experience on_model_changed x s =
  let q := Q_ s in
  let memory' := memory q ++ [x] in
  let params' := fit (params q) memory' (t_ q + 1) in
  let s2 :=
    set_Q_ (fun _ => {| t_ := t_ q + 1; memory := memory';
                        params := params' |})
      (set_trace (fun tr => tr ++ [EvAddExperience x]) s) in
  if model_changed (t_ q + 1) (params q) params'
  then on_model_changed s2 else Return tt s2.
Proof.
  unfold Q_add_experience, bind, emit, modify, get. simpl.
  now destruct (model_changed _ _ _).
Qed.
End Trigger.

(** ** Responses without text *)

Section NoText.
Context `{Collaborators}.

Lemma on_model_changed_keeps_G (g : option (gmap Z (gmap string NodeValue))) :
  hoare (fun s => G s = g) on_model_changed (fun s => G s = g).
Proof.
  apply (fr_on_model_changed (fun _ s => G s = g)) with (k := 0%nat);
    auto; lia.
Qed.

Lemma bind_Return {S A B} (m : Eff S A) (k : A -> Eff S B) (s s' : S)
    (a : A) :
  m s = Return a s' -> bind m k s = k a s'.
Proof. intros Hm. unfold bind. now rewrite Hm. Qed.

Lemma final_state_then_ret {S A B} (m : Eff S A) (b : B) (s : S) :
  final_state ((m ;;; ret b) s) = final_state (m s).
Proof. unfold bind. now destruct (m s). Qed.

Lemma no_text_parse_eq (response : Response) (s : QSpider) :
  has_text response = false -> is_seed (meta response) = false ->
  _parse response s =
  (Q_add_experience on_model_changed (terminal_experience response) ;;;
   update_node response {[ "reward" := NFloat 0 ]} ;;;
   ret ([], 0%Q)) s.
Proof.
  intros Htext Hseed. unfold _parse. now rewrite Htext, Hseed.
Qed.

Lemma recorded_state (x : Experience) (s : QSpider) :
  exists s2,
    final_state (Q_add_experience on_model_changed x s) = s2
    /\ (exists o, Q_add_experience on_model_changed x s = Return tt o)
    /\ memory (Q_ s2) = memory (Q_ s) ++ [x]
    /\ t_ (Q_ s2) = t_ (Q_ s) + 1
    /\ total_reward s2 = total_reward s
    /\ G s2 = G s
    /\ exists rest,
         trace s2 = trace s ++ EvAddExperience x :: rest
         /\ Forall (fun e => is_add_experience e = false) rest.
Proof.
  eexists. split; [reflexivity|]. rewrite Q_add_experience_eq. cbv zeta.
  set (s2 := set_Q_ _ _).
  destruct (model_changed _ _ _).
  - destruct (on_model_changed_returns s2) as (s3 & Hrun).
    pose proof (on_model_changed_untouched _ _ _ s2
                  (learning_untouched_start s2)) as (HQ & Hr & new & Htr & Hnew).
    pose proof (on_model_changed_keeps_G (G s2) s2 eq_refl) as HG.
    rewrite Hrun in *. simpl in *.
    split; [eauto|]. rewrite HQ, Hr, HG, Htr. unfold s2. simpl.
    repeat split; auto. exists new. now rewrite <- app_assoc.
  - simpl. split; [eauto|]. repeat split; auto.
    exists []. now split.
Qed.

End NoText.

(** ** Checkpoints *)

Section Checkpoints.
Context `{Collaborators}.

Lemma checkpoint_taken_spec (s : QSpider) :
  checkpoint_taken s =
  destination_configured s && negb (checkpoint_interval s =? 0)
  && (t_ (Q_ s) mod checkpoint_interval s =? 0) && negb (t_ (Q_ s) =? 0).
Proof.
  unfold checkpoint_taken, new_events, maybe_checkpoint,
    destination_configured, bind, emit, modify, get, py_mod. simpl.
  destruct (checkpoint_interval s =? 0) eqn:Ei; simpl.
  { rewrite drop_app_length. simpl. now rewrite andb_false_r. }
  destruct (t_ (Q_ s) mod checkpoint_interval s =? 0) eqn:Em; simpl;
  destruct (t_ (Q_ s) =? 0) eqn:Et; simpl; rewrite ?drop_app_length; simpl;
    rewrite ?andb_false_r; try reflexivity.
  unfold do_checkpoint, dump_policy, dump_crawl_graph,
    bind, emit, modify, get, ret.
  repeat (simpl in *; case_match; simplify_eq);
    simpl; rewrite <- ?app_assoc, ?drop_app_length; try reflexivity;
    try congruence.
Qed.

Lemma multiple_iff (t i : Z) :
  t <> 0 -> ((i | t) <-> i <> 0 /\ t mod i = 0).
Proof.
  intros Ht. split.
  - intros Hdiv. assert (Hi : i <> 0).
    { intros ->. apply Z.divide_0_l in Hdiv. contradiction. }
    split; [exact Hi|]. now apply Z.mod_divide.
  - intros [Hi Hmod]. now apply Z.mod_divide.
Qed.

(** C5 (as the code has it). With a step counter that is not negative, a
    checkpoint is taken after a response if and only if a checkpoint
    destination is configured, the step counter is strictly positive and
    it is an exact multiple of the checkpoint interval; at step 0 none is
    taken, whatever the interval and the destination. *)
Theorem checkpoint_taken_iff (s : QSpider) :
  0 <= t_ (Q_ s) ->
  (checkpoint_taken s = true <->
   destination_configured s = true
   /\ 0 < t_ (Q_ s)
   /\ (checkpoint_interval s | t_ (Q_ s)))
  /\ (t_ (Q_ s) = 0 -> checkpoint_taken s = false).
Proof.
  intros Hpos. rewrite checkpoint_taken_spec. split.
  - rewrite !andb_true_iff, !negb_true_iff, !Z.eqb_neq, Z.eqb_eq. split.
    + intros [[[Hd Hi] Hm] Ht]. split; [exact Hd|]. split; [lia|].
      now apply multiple_iff.
    + intros (Hd & Ht & Hdiv). apply multiple_iff in Hdiv as [Hi Hm]; [|lia].
      repeat split; auto; lia.
  - intros ->. simpl. now rewrite andb_false_r.
Qed.

Lemma returned_bind_None {S A B} (m : Eff S A) (k : A -> Eff S B) (s : S) :
  (forall a s', m s = Return a s' -> returned (k a s') = None) ->
  returned (bind m k s) = None.
Proof.
  intros Hk. unfold bind. destruct (m s) as [a s'|e s']; [|reflexivity].
  now apply Hk.
Qed.

Lemma maybe_checkpoint_zero (s : QSpider) :
  checkpoint_interval s = 0 ->
  maybe_checkpoint s
  = Raise ZeroDivisionError
      (set_trace (fun tr => tr ++ [EvMaybeCheckpoint]) s).
Proof.
  intros Hi. unfold maybe_checkpoint, bind, emit, modify, get, py_mod.
  simpl. now rewrite Hi.
Qed.

Lemma do_checkpoint_returns (s : QSpider) :
  exists s', do_checkpoint s = Return tt s'.
Proof.
  unfold do_checkpoint, dump_policy, dump_crawl_graph,
    bind, emit, modify, get, ret.
  repeat (simpl in *; case_match; simplify_eq); eauto.
Qed.

Lemma returned_state {A} (P : QSpider -> Prop) (m : Eff QSpider A)
    (s s' : QSpider) (a : A) :
  hoare P m P -> P s -> m s = Return a s' -> P s'.
Proof. intros Hm Hs Hrun. specialize (Hm s Hs). now rewrite Hrun in Hm. Qed.

Lemma parse_never_returns (response : Response) (s : QSpider) :
  checkpoint_interval s = 0 -> returned (parse response s) = None.
Proof.
  intros Hi. unfold parse.
  assert (Hinc : hoare (interval_is 0 0%nat) increase_response_count
                       (interval_is 0 0%nat))
    by (apply (fr_increase_response_count (interval_is 0)); now auto).
  assert (Hclose : hoare (interval_is 0 0%nat) close_finished_queues
                         (interval_is 0 0%nat))
    by (apply (hoare_post _ (interval_is 0 1%nat));
        [apply (fr_close_finished_queues (interval_is 0)); auto|auto]).
  assert (Hdebug : hoare (interval_is 0 0%nat)
                         (_debug_expected_vs_got response)
                         (interval_is 0 0%nat))
    by (apply (fr_debug (interval_is 0)); now auto).
  assert (Hparse : hoare (interval_is 0 0%nat) (_parse response)
                         (interval_is 0 0%nat))
    by (apply (hoare_post _ (interval_is 0 4%nat));
        [apply (fr_parse_ (interval_is 0)); auto; lia|auto]).
  assert (Hlog : hoare (interval_is 0 0%nat) log_stats
                       (interval_is 0 0%nat))
    by (apply (fr_log_stats (interval_is 0)); now auto).
  apply returned_bind_None. intros ? s1 H1.
  pose proof (returned_state _ _ _ _ _ Hinc Hi H1) as K1.
  apply returned_bind_None. intros ? s2 H2.
  pose proof (returned_state _ _ _ _ _ Hclose K1 H2) as K2.
  apply returned_bind_None. intros ? s3 H3.
  pose proof (returned_state _ _ _ _ _ Hdebug K2 H3) as K3.
  apply returned_bind_None. intros out s4 H4.
  pose proof (returned_state _ _ _ _ _ Hparse K3 H4) as K4.
  apply returned_bind_None. intros ? s5 H5.
  pose proof (returned_state _ _ _ _ _ Hlog K4 H5) as K5.
  apply returned_bind_None. intros ? s6 H6.
  rewrite (maybe_checkpoint_zero s5 K5) in H6. discriminate.
Qed.

(** C10. With a checkpoint interval of 0 the checkpoint check raises
    [ZeroDivisionError] at every step count, the modulo being taken before
    the step counter is compared with 0, so that no response is processed
    to its end; with a strictly positive interval the check returns. *)
Theorem checkpoint_interval_zero_raises (s : QSpider) :
  (checkpoint_interval s = 0 ->
   maybe_checkpoint s
   = Raise ZeroDivisionError
       (set_trace (fun tr => tr ++ [EvMaybeCheckpoint]) s)
   /\ forall response, returned (parse response s) = None)
  /\ (0 < checkpoint_interval s ->
      exists s', maybe_checkpoint s = Return tt s').
Proof.
  split.
  - intros Hi. split; [now apply maybe_checkpoint_zero|].
    intros response. now apply parse_never_returns.
  - intros Hi. unfold maybe_checkpoint, bind, emit, modify, get, py_mod.
    simpl. destruct (checkpoint_interval s =? 0) eqn:Ei; [lia|]. simpl.
    destruct (negb _ || _); [eauto|]. apply do_checkpoint_returns.
Qed.
End Checkpoints.

(** ** Slot lifecycle *)

Section Slots.
Context `{Collaborators}.

Lemma closed_close_slot (slot slot' : string) (s : QSpider) :
  closed slot s -> closed slot (set_scheduler (queue_close_slot slot') s).
Proof.
  intros [Hin Hq]. split; simpl.
  - set_solver.
  - apply lookup_delete_None. now right.
Qed.

Lemma closed_put_queue (slot slot' : string) (q : list Request)
    (s : QSpider) :
  is_Some (queues (scheduler s) !! slot') -> closed slot s ->
  closed slot (set_scheduler (put_queue slot' q) s).
Proof.
  intros Hsome [Hin Hq]. split; simpl; [exact Hin|].
  rewrite lookup_insert_ne; [exact Hq|].
  intros ->. rewrite Hq in Hsome. now destruct Hsome.
Qed.

Lemma closed_enqueue (slot : string) (r : Request) (s : QSpider) :
  closed slot s -> closed slot (set_scheduler (enqueue_request r) s).
Proof.
  intros [Hin Hq]. unfold closed, enqueue_request. simpl.
  destruct (bool_decide (request_slot r ∈ closed_slots (scheduler s)))
    eqn:Hclosed; [now split|].
  apply bool_decide_eq_false in Hclosed.
  split; simpl; [exact Hin|].
  rewrite lookup_insert_ne; [exact Hq|]. intros Heq. apply Hclosed.
  now rewrite Heq.
Qed.

Lemma closed_dequeue (slot slot' : string) (i : nat) (s : QSpider) :
  closed slot s -> closed slot (set_scheduler (dequeue_request slot' i) s).
Proof.
  intros [Hin Hq]. split; simpl; [exact Hin|].
  destruct (decide (slot' = slot)) as [->|Hne].
  - now rewrite lookup_alter_eq, Hq.
  - now rewrite lookup_alter_ne.
Qed.

Lemma closed_not_active (slot : string) (s : QSpider) :
  closed slot s -> slot ∉ get_active_slots (scheduler s).
Proof.
  intros [_ Hq]. unfold get_active_slots.
  rewrite elem_of_elements. now apply not_elem_of_dom.
Qed.

Ltac unchanged :=
  intros; unfold stays_closed, closed, only_emits in *; simpl; assumption.

Lemma parse_stays_closed (slot : string) (tr0 : list Event)
    (response : Response) :
  hoare (stays_closed slot tr0) (parse response) (stays_closed slot tr0).
Proof.
  assert (Hemit : forall e (k : nat) s,
    harmless e -> level_ok k e -> stays_closed slot tr0 s ->
    stays_closed slot tr0 (set_trace (fun tr => tr ++ [e]) s)).
  { intros e k s He _ [Hc Htr]. split; [exact Hc|].
    apply only_emits_emit; [|exact Htr]. intros ->. exact He. }
  assert (Hclose : forall slot' (k : nat) s,
    stays_closed slot tr0 s ->
    stays_closed slot tr0 (set_scheduler (queue_close_slot slot') s)).
  { intros slot' k s [Hc Htr]. split; [|exact Htr].
    now apply closed_close_slot. }
  apply (fr_parse_with (fun _ => stays_closed slot tr0)) with (k := 0%nat);
    try unchanged; try lia; auto.
  intros j Hj.
  apply (fr_parse_ (fun _ => stays_closed slot tr0)) with (k := j);
    try unchanged; try lia; auto.
  - intros x k s _ [Hc Htr]. split; [exact Hc|].
    now apply only_emits_emit.
  - intros slot' k s _ Hsome [Hc Htr]. split; [exact Hc|].
    apply only_emits_emit; [|exact Htr].
    intros [= ->]. destruct Hc as [_ Hq]. rewrite Hq in Hsome.
    now destruct Hsome.
  - intros slot' q k s Hsome [Hc Htr]. split; [|exact Htr].
    now apply closed_put_queue.
Qed.

Lemma step_stays_closed (slot : string) (tr0 : list Event) (s s' : QSpider) :
  step s s' -> stays_closed slot tr0 s -> stays_closed slot tr0 s'.
Proof.
  intros Hstep Hs. destruct Hstep as [s response|s r|s slot' i].
  - now apply parse_stays_closed.
  - destruct Hs as [Hc Htr]. split; [|exact Htr]. now apply closed_enqueue.
  - destruct Hs as [Hc Htr]. split; [|exact Htr]. now apply closed_dequeue.
Qed.

Lemma steps_stay_closed (slot : string) (tr0 : list Event) (s s' : QSpider) :
  steps s s' -> stays_closed slot tr0 s -> stays_closed slot tr0 s'.
Proof.
  induction 1 as [s|s1 s2 s3 Hstep _ IH]; intros Hs; [exact Hs|].
  apply IH. now apply (step_stays_closed slot tr0 s1).
Qed.

Lemma close_loop_closes (slot : string) (g : Goal_) (slots : list string) :
  is_acheived_for g slot = true ->
  forall s,
    goal s = g -> slot ∈ slots \/ closed slot s ->
    closed slot
      (final_state
         (for_each slots (fun x =>
            s <- get ;;
            if is_acheived_for (goal s) x then close_slot x else ret tt) s)).
Proof.
  intros Hdone. induction slots as [|x slots IH]; intros s Hg Hs.
  - destruct Hs as [Hin|Hc]; [now apply elem_of_nil in Hin|exact Hc].
  - simpl. unfold bind at 1, bind at 1, get. rewrite Hg.
    destruct (is_acheived_for g x) eqn:Hx.
    + unfold close_slot, bind at 1, emit, modify. apply IH; [exact Hg|].
      destruct Hs as [Hin|Hc].
      * apply elem_of_cons in Hin as [->|Hin]; [|now left].
        right. split; simpl; [set_solver|]. now rewrite lookup_delete_eq.
      * right. now apply (closed_close_slot slot x) in Hc.
    + unfold ret. apply IH; [exact Hg|].
      destruct Hs as [Hin|Hc]; [|now right].
      apply elem_of_cons in Hin as [->|Hin]; [congruence|now left].
Qed.

(** C6. A slot the goal reports as done is closed by
    [close_finished_queues]; and once a slot is closed, through every
    further step of the crawl (responses processed, requests queued,
    requests taken) it stays closed, is not among the active slots, and no
    refresh pass rewrites it. *)
Theorem closed_slot_is_terminal (slot : string) (s s' : QSpider) :
  (slot ∈ get_active_slots (scheduler s) ->
   is_acheived_for (goal s) slot = true ->
   closed slot (final_state (close_finished_queues s)))
  /\ (closed slot s -> steps s s' ->
      closed slot s'
      /\ (slot ∉ get_active_slots (scheduler s'))
      /\ (EvUpdatePriorities slot ∉ drop (length (trace s)) (trace s'))).
Proof.
  split.
  - intros Hin Hdone.
    unfold close_finished_queues, bind at 1, emit, modify, bind at 1, get.
    apply (close_loop_closes slot (goal s)); auto.
  - intros Hc Hsteps.
    destruct (steps_stay_closed slot (trace s) s s' Hsteps)
      as [Hc' (new & Htr & Hnew)].
    { split; [exact Hc|]. apply only_emits_start. }
    split; [exact Hc'|]. split; [now apply closed_not_active|].
    rewrite Htr, drop_app_length. intros Hin.
    rewrite Forall_forall in Hnew. now apply (Hnew _ Hin).
Qed.
End Slots.

(** ** Link scoring *)

Section Links.
Context `{Collaborators}.

Lemma surviving_fresh (u : string) (seen : gset string) (links : list Link) :
  u ∉ map link_url links ->
  surviving_links ({[ u ]} ∪ seen) links = surviving_links seen links.
Proof.
  unfold surviving_links. induction links as [|l links IH]; intros Hu.
  - reflexivity.
  - simpl in Hu. apply not_elem_of_cons in Hu as [Hne Hu].
    rewrite !filter_cons, IH by exact Hu.
    destruct (decide (link_url l ∉ {[u]} ∪ seen)) as [Hin|Hin];
    destruct (decide (link_url l ∉ seen)) as [Hin'|Hin'];
      try reflexivity; exfalso; set_solver.
Qed.

Lemma dedup_enumerated_spec (full : list Link) (links : list Link) :
  forall (pre : list Link) (seen : gset string),
    full = pre ++ links -> NoDup (map link_url links) ->
    map snd (dedup_enumerated seen (length pre) links).1
    = surviving_links seen links
    /\ Forall (fun il => full !! il.1 = Some il.2)
              (dedup_enumerated seen (length pre) links).1.
Proof.
  induction links as [|l links IH]; intros pre seen Hfull Hnodup.
  - simpl. split; [reflexivity|constructor].
  - simpl in Hnodup. apply NoDup_cons in Hnodup as [Hl Hnodup].
    assert (Hfull' : full = (pre ++ [l]) ++ links)
      by now rewrite <- app_assoc.
    assert (Hlen : length (pre ++ [l]) = S (length pre))
      by (rewrite length_app; simpl; lia).
    simpl. unfold surviving_links. rewrite filter_cons.
    destruct (decide (link_url l ∉ seen)) as [Hnew|Hold].
    + rewrite bool_decide_eq_false_2 by exact Hnew.
      specialize (IH (pre ++ [l]) ({[link_url l]} ∪ seen) Hfull' Hnodup).
      rewrite Hlen in IH.
      destruct (dedup_enumerated _ (S (length pre)) links) as [out seen'].
      simpl in *. destruct IH as [IH1 IH2]. split.
      * rewrite IH1. f_equal. now apply surviving_fresh.
      * constructor; [|exact IH2]. simpl. rewrite Hfull.
        now rewrite list_lookup_middle.
    + rewrite bool_decide_eq_true_2 by (destruct (decide (link_url l ∈ seen)); [assumption|contradiction]).
      specialize (IH (pre ++ [l]) seen Hfull' Hnodup).
      now rewrite Hlen in IH.
Qed.

Lemma deduplicate_links_enumerated_eq (links : list Link) (s : QSpider) :
  deduplicate_links_enumerated links s =
  Return (dedup_enumerated (seen_urls s) 0 links).1
    (set_seen_urls
       (fun _ => (dedup_enumerated (seen_urls s) 0 links).2)
       (set_trace (fun tr => tr ++ [EvDeduplicate links]) s)).
Proof.
  unfold deduplicate_links_enumerated, bind, emit, modify, get, ret. simpl.
  now destruct (dedup_enumerated (seen_urls s) 0 links).
Qed.

Lemma select_rows_eq (links : list Link) (pv : option PageVector)
    (out : list (nat * Link)) (s : QSpider) :
  out <> [] ->
  Forall (fun il => links !! il.1 = Some il.2) out ->
  select_rows (links_matrix_of links pv) (map fst out) s
  = Return (map (fun il => sav_of pv il.2) out) s.
Proof.
  intros Hne Hout. unfold select_rows, links_matrix_of.
  destruct links as [|l0 links0] eqn:El.
  { destruct out as [|il out]; [contradiction|].
    apply Forall_cons in Hout as [Hil _]. now rewrite lookup_nil in Hil. }
  rewrite <- El in *. simpl.
  rewrite (proj2 (mapM_Some _ (map fst out)
                    (map (fun il => sav_of pv il.2) out))); [reflexivity|].
  apply Forall2_fmap, Forall_Forall2_diag.
  eapply Forall_impl; [exact Hout|]. intros [i l] Hil. simpl in *.
  rewrite !list_lookup_fmap, Hil. reflexivity.
Qed.

Lemma zip_requests (pv : option PageVector) (model : Model)
    (ls : list Link) :
  zip_with (fun l vs => new_request l vs.1 vs.2) ls
    (zip (map (sav_of pv) ls) (map (score_row model) (map (sav_of pv) ls)))
  = map (scored_request pv model) ls.
Proof.
  induction ls as [|l ls IH]; [reflexivity|]. simpl. now rewrite IH.
Qed.

Lemma links_to_requests_eq (links : list Link) (pv : option PageVector)
    (s : QSpider) :
  NoDup (map link_url links) ->
  exists s',
    _links_to_requests links (links_matrix_of links pv) s
    = Return (map (scored_request pv (params (Q_ s)))
                  (surviving_links (seen_urls s) links)) s'
    /\ Q_ s' = Q_ s
    /\ trace s'
       = trace s ++ EvDeduplicate links ::
           match surviving_links (seen_urls s) links with
           | [] => []
           | ls => [EvPredict (map (sav_of pv) ls)]
           end.
Proof.
  intros Hnodup.
  destruct (dedup_enumerated_spec links links [] (seen_urls s) eq_refl Hnodup)
    as [Hsurv Hout]. simpl in Hsurv, Hout.
  unfold _links_to_requests, bind at 1.
  rewrite deduplicate_links_enumerated_eq.
  set (s1 := set_seen_urls _ _).
  destruct (dedup_enumerated (seen_urls s) 0 links).1 as [|il out] eqn:Eout.
  - rewrite <- Hsurv. simpl. exists s1. split; [reflexivity|].
    split; [reflexivity|]. unfold s1. simpl. reflexivity.
  - cbv iota. unfold bind at 1.
    rewrite (select_rows_eq links pv (il :: out) s1 ltac:(discriminate) Hout).
    unfold Q_predict, bind, emit, modify, get, ret. simpl.
    eexists. split.
    { apply (f_equal2 Return); [|reflexivity].
      rewrite <- Hsurv, <- (zip_requests pv (params (Q_ s))). simpl.
      now rewrite !map_map. }
    split; [reflexivity|].
    simpl. rewrite <- app_assoc. simpl. rewrite <- Hsurv.
    simpl. now rewrite map_map.
Qed.

Lemma deduplicate_local_fresh (links : list Link) :
  forall seen : gset string,
    NoDup (map link_url (deduplicate_local seen links))
    /\ Forall (fun l => link_url l ∉ seen) (deduplicate_local seen links).
Proof.
  induction links as [|l links IH]; intros seen; simpl.
  - split; constructor.
  - case_bool_decide as Hl; [apply IH|].
    destruct (IH ({[link_url l]} ∪ seen)) as [Hnodup Hfresh].
    split.
    + simpl. apply NoDup_cons. split; [|exact Hnodup].
      intros Hin. apply list_elem_of_fmap in Hin as (l' & Heq & Hin).
      rewrite Forall_forall in Hfresh. specialize (Hfresh l' Hin).
      set_solver.
    + constructor; [exact Hl|].
      eapply Forall_impl; [exact Hfresh|]. simpl. set_solver.
Qed.

Lemma get_page_vector_eq (response : Response) (s : QSpider) :
  has_text response = true ->
  _get_page_vector response s = Return (page_vector_for s response) s.
Proof.
  unfold has_text, _get_page_vector, page_vector_for, bind, get.
  destruct (text response); [|discriminate]. intros _.
  now destruct (use_pages s =? 0).
Qed.

Lemma add_experience_keeps_context (s0 : QSpider) (x : Experience) :
  hoare (scoring_context s0 0%nat) (Q_add_experience on_model_changed x)
        (scoring_context s0 3%nat).
Proof.
  apply (fr_Q_add_experience (scoring_context s0)); auto; lia.
Qed.

Lemma add_experience_returns (x : Experience) (s : QSpider) :
  exists s', Q_add_experience on_model_changed x s = Return tt s'.
Proof.
  destruct (recorded_state x s) as (_ & _ & (o & Hrun) & _). eauto.
Qed.

End Links.

Section ParseLinks.
Context `{Collaborators}.

Lemma extract_links_eq (response : Response) (s : QSpider) :
  _extract_links response s = Return (extracted_links s response) s.
Proof. reflexivity. Qed.

Lemma update_node_no_graph (response : Response)
    (data : gmap string NodeValue) (s : QSpider) :
  G s = None -> update_node response data s = Return tt s.
Proof. intros HG. unfold update_node, bind, get. now rewrite HG. Qed.

Lemma parse_scores_links (response : Response) (s : QSpider) :
  has_text response = true -> is_seed (meta response) = false ->
  G s = None ->
  exists s',
    _parse response s
    = Return
        (map (scored_request (page_vector_for s response) (params (Q_ s')))
             (surviving_links (seen_urls s) (extracted_links s response)),
         get_reward (goal s) response) s'.
Proof.
  intros Htext Hseed HG. unfold _parse. rewrite Hseed, Htext. simpl.
  rewrite (bind_Return _ _ _ _ _ (get_page_vector_eq response s Htext)).
  rewrite (bind_Return _ _ _ _ _ (extract_links_eq response s)).
  set (links := extracted_links s response).
  set (pv := page_vector_for s response).
  fold (links_matrix_of links pv).
  unfold bind at 1, bind at 1, get.
  rewrite (bind_Return _ _ _ _ _ (update_node_no_graph _ _ s HG)).
  unfold bind at 1, modify.
  set (s1 := set_total_reward _ s).
  destruct (add_experience_returns
              {| as_t := link_vector (meta response);
                 AS_t1 := links_matrix_of links pv;
                 r_t1 := get_reward (goal s) response |} s1) as (s2 & Hrun).
  pose proof (add_experience_keeps_context s
                {| as_t := link_vector (meta response);
                   AS_t1 := links_matrix_of links pv;
                   r_t1 := get_reward (goal s) response |} s1
                ltac:(repeat split)) as Hctx.
  rewrite Hrun in Hctx. simpl in Hctx. destruct Hctx as (Hseen & _).
  rewrite (bind_Return _ _ _ _ _ Hrun).
  unfold bind at 1, ret. unfold bind at 1.
  set (s3 := set_goal _ s2).
  destruct (links_to_requests_eq links pv s3) as (s' & Hlinks & HQ & _).
  { apply deduplicate_local_fresh. }
  rewrite Hlinks. exists s'. rewrite HQ. unfold s3. simpl.
  now rewrite Hseen.
Qed.
End ParseLinks.

(** ** The refresh pass, in full *)

Section RefreshRun.
Context `{Collaborators}.

Lemma app_snoc_cons {A} (l : list A) (x : A) (l' : list A) :
  (l ++ [x]) ++ l' = l ++ x :: l'.
Proof. now rewrite <- app_assoc. Qed.

Lemma refresh_events_ext (qs qs' : gmap string (list Request))
    (slots : list string) :
  (forall slot, slot ∈ slots -> qs !! slot = qs' !! slot) ->
  refresh_events qs slots = refresh_events qs' slots.
Proof.
  induction slots as [|slot slots IH]; intros Hext; [reflexivity|].
  simpl. rewrite (Hext slot) by left. f_equal. f_equal.
  apply IH. intros x Hx. apply Hext. now right.
Qed.

Lemma refresh_loop_run (model : Model) (slots : list string) :
  NoDup slots ->
  forall s,
    params (Q_ s) = model ->
    (forall slot, slot ∈ slots -> is_Some (queues (scheduler s) !! slot)) ->
    exists sch',
      for_each slots
        (fun slot => update_all_priorities slot request_priorities) s
      = Return tt
          (set_trace
             (fun tr => tr ++ refresh_events (queues (scheduler s)) slots)
             (set_scheduler (fun _ => sch') s))
      /\ closed_slots sch' = closed_slots (scheduler s)
      /\ forall slot,
           queues sch' !! slot =
           if decide (slot ∈ slots)
           then map (refreshed model) <$> queues (scheduler s) !! slot
           else queues (scheduler s) !! slot.
Proof.
  induction 1 as [|slot slots Hnotin Hnodup IH]; intros s Hm Hopen.
  - exists (scheduler s). simpl. split; [|now split].
    unfold ret. f_equal. destruct s. unfold set_trace, set_scheduler. simpl.
    now rewrite app_nil_r.
  - destruct (Hopen slot ltac:(left)) as [q Hq].
    simpl. unfold bind at 1. rewrite (update_all_priorities_eq _ _ _ Hq).
    rewrite Hm. set (s1 := set_scheduler _ _).
    assert (Hsch : queues (scheduler s1)
                   = <[ slot := map (refreshed model) q ]>
                       (queues (scheduler s))).
    { unfold s1. simpl. now rewrite note_prediction_scheduler. }
    assert (Hcl : closed_slots (scheduler s1) = closed_slots (scheduler s)).
    { unfold s1. simpl. now rewrite note_prediction_scheduler. }
    destruct (IH s1) as (sch' & Hrun & Hcl' & Hqs).
    { unfold s1. simpl. now rewrite note_prediction_Q. }
    { intros x Hx. rewrite Hsch. apply lookup_insert_is_Some'. right.
      apply Hopen. now right. }
    exists sch'. split; [|split].
    + rewrite Hrun. f_equal.
      rewrite (refresh_events_ext (queues (scheduler s1))
                 (queues (scheduler s)) slots).
      2:{ intros x Hx. rewrite Hsch. apply lookup_insert_ne.
          intros ->. now apply Hnotin. }
      rewrite Hq. simpl. unfold s1, note_prediction.
      destruct (vectors_of q); destruct s;
        unfold set_trace, set_scheduler; simpl; f_equal;
        now rewrite <- ?app_assoc.
    + congruence.
    + intros x. rewrite Hqs, Hsch.
      destruct (decide (x = slot)) as [->|Hne].
      * rewrite decide_False by exact Hnotin.
        rewrite decide_True by left.
        now rewrite lookup_insert_eq, Hq.
      * rewrite lookup_insert_ne by congruence.
        destruct (decide (x ∈ slots)) as [Hin|Hout].
        -- rewrite decide_True by now right. reflexivity.
        -- rewrite decide_False; [reflexivity|].
           intros Hin. apply elem_of_cons in Hin as [?|?]; congruence.
Qed.

Lemma recalculate_run (s : QSpider) :
  baseline s = false ->
  recalculate_request_priorities s
  = Return tt
      (set_trace
         (fun tr => tr ++ EvRecalculate ::
                    refresh_events (queues (scheduler s))
                      (get_active_slots (scheduler s)))
         (set_scheduler (refreshed_frontier (params (Q_ s))) s)).
Proof.
  intros Hb. unfold recalculate_request_priorities, bind at 1, emit, modify.
  unfold bind at 1, get. simpl. rewrite Hb.
  set (s0 := set_trace _ s).
  destruct (refresh_loop_run (params (Q_ s))
              (get_active_slots (scheduler s)) (NoDup_elements _) s0)
    as (sch' & Hrun & Hcl & Hqs).
  { reflexivity. }
  { intros slot Hin. unfold get_active_slots in Hin.
    apply elem_of_elements, elem_of_dom in Hin. exact Hin. }
  rewrite Hrun. f_equal.
  assert (Hsch : sch' = refreshed_frontier (params (Q_ s)) (scheduler s)).
  { destruct sch' as [qs cl]. unfold refreshed_frontier. simpl in *.
    f_equal; [|exact Hcl].
    apply map_eq. intros slot. rewrite Hqs, lookup_fmap.
    destruct (decide (slot ∈ get_active_slots (scheduler s))) as [Hin|Hout];
      [reflexivity|].
    unfold get_active_slots in Hout.
    rewrite elem_of_elements, not_elem_of_dom in Hout. now rewrite Hout. }
  rewrite Hsch. unfold s0. destruct s. unfold set_trace, set_scheduler. simpl.
  f_equal. now rewrite <- app_assoc.
Qed.

Lemma on_model_changed_run (s : QSpider) :
  on_model_changed s
  = Return tt
      (set_trace
         (fun tr => tr ++ EvModelChanged :: EvRecalculate ::
                    if baseline s then []
                    else refresh_events (queues (scheduler s))
                           (get_active_slots (scheduler s)))
         (set_scheduler
            (fun sch => if baseline s then sch
                        else refreshed_frontier (params (Q_ s)) sch)
            (set_model_changes (fun n => n + 1) s))).
Proof.
  rewrite on_model_changed_eq. set (s1 := set_model_changes _ _).
  destruct (baseline s) eqn:Hb.
  - rewrite (recalculate_baseline s1 Hb). f_equal. unfold s1.
    destruct s. unfold set_trace, set_scheduler, set_model_changes. simpl.
    f_equal. now rewrite <- app_assoc.
  - rewrite (recalculate_run s1 Hb). f_equal. unfold s1.
    destruct s. unfold set_trace, set_scheduler, set_model_changes. simpl.
    f_equal. now rewrite <- app_assoc.
Qed.
End RefreshRun.

(** ** Slot closing, in full *)

Section Closing.
Context `{Collaborators}.

Lemma close_loop_run (g : Goal_) (slots : list string) :
  forall s,
    goal s = g ->
    for_each slots
      (fun slot =>
         s <- get ;;
         if is_acheived_for (goal s) slot then close_slot slot else ret tt) s
    = Return tt
        (set_trace
           (fun tr => tr ++ map EvCloseSlot
                              (filter (fun slot => is_acheived_for g slot = true)
                                      slots))
           (set_scheduler
              (fun sch =>
                 foldl (fun sch slot =>
                          if is_acheived_for g slot
                          then queue_close_slot slot sch else sch)
                       sch slots)
              s)).
Proof.
  induction slots as [|slot slots IH]; intros s Hg.
  - simpl. unfold ret. f_equal. destruct s.
    unfold set_trace, set_scheduler. simpl. now rewrite app_nil_r.
  - simpl. unfold bind at 1, bind at 1, get. rewrite Hg.
    destruct (is_acheived_for g slot) eqn:Hdone.
    + rewrite filter_cons_True by exact Hdone.
      unfold close_slot, bind, emit, modify. rewrite IH by exact Hg.
      f_equal. destruct s. unfold set_trace, set_scheduler. simpl.
      f_equal. now rewrite <- app_assoc.
    + rewrite filter_cons_False by congruence.
      unfold ret. now rewrite IH by exact Hg.
Qed.

Lemma closed_frontier_lookup (g : Goal_) (slots : list string)
    (sch : Scheduler) (slot : string) :
  queues (foldl (fun sch slot =>
                   if is_acheived_for g slot
                   then queue_close_slot slot sch else sch) sch slots)
    !! slot
  = if decide (slot ∈ slots /\ is_acheived_for g slot = true) then None
    else queues sch !! slot.
Proof.
  revert sch. induction slots as [|x slots IH]; intros sch.
  - case_decide as Hin; [|reflexivity]. destruct Hin as [Hin _].
    now apply elem_of_nil in Hin.
  - cbn [foldl]. rewrite IH.
    destruct (decide (slot ∈ slots /\ is_acheived_for g slot = true))
      as [[Hin Hdone]|Hno].
    { rewrite decide_True; [reflexivity|]. split; [now right|exact Hdone]. }
    destruct (decide (slot = x)) as [->|Hne].
    + destruct (is_acheived_for g x) eqn:Hx.
      * rewrite decide_True by (split; [left|reflexivity]).
        apply lookup_delete_eq.
      * rewrite decide_False; [reflexivity|]. intros [_ ?]. discriminate.
    + rewrite decide_False.
      2:{ intros [Hin Hdone]. apply Hno. split; [|exact Hdone].
          apply elem_of_cons in Hin as [?|?]; [congruence|assumption]. }
      destruct (is_acheived_for g x); [|reflexivity].
      now apply lookup_delete_ne.
Qed.

Lemma closed_frontier_closed (g : Goal_) (slots : list string)
    (sch : Scheduler) (slot : string) :
  slot ∈ closed_slots
           (foldl (fun sch slot =>
                     if is_acheived_for g slot
                     then queue_close_slot slot sch else sch) sch slots)
  <-> slot ∈ closed_slots sch
      \/ (slot ∈ slots /\ is_acheived_for g slot = true).
Proof.
  revert sch. induction slots as [|x slots IH]; intros sch; simpl.
  - split; [now left|]. intros [?|[Hin _]]; [assumption|].
    now apply elem_of_nil in Hin.
  - rewrite IH. destruct (is_acheived_for g x) eqn:Hdone; simpl.
    + rewrite elem_of_union, elem_of_singleton, elem_of_cons.
      split.
      * intros [[->|?]|[? ?]]; auto.
      * intros [?|[[->|?] ?]]; auto.
    + rewrite elem_of_cons. split.
      * intros [?|[? ?]]; auto.
      * intros [?|[[->|?] ?]]; auto. congruence.
Qed.

(** X1. [close_finished_queues] always returns; it closes exactly the open
    slots whose goal is reached, in the order of the active slots, leaves
    the queue of every other slot as it was, and changes nothing but the
    frontier (and the trace). *)
Theorem close_finished_queues_effect (s : QSpider) :
  exists sch',
    close_finished_queues s
    = Return tt
        (set_trace
           (fun tr =>
              tr ++ EvCloseFinishedQueues ::
              map EvCloseSlot
                (filter (fun slot => is_acheived_for (goal s) slot = true)
                        (get_active_slots (scheduler s))))
           (set_scheduler (fun _ => sch') s))
    /\ (forall slot,
          queues sch' !! slot
          = if is_acheived_for (goal s) slot then None
            else queues (scheduler s) !! slot)
    /\ (forall slot,
          slot ∈ closed_slots sch'
          <-> slot ∈ closed_slots (scheduler s)
              \/ (is_Some (queues (scheduler s) !! slot)
                  /\ is_acheived_for (goal s) slot = true)).
Proof.
  exists (foldl (fun sch slot =>
                   if is_acheived_for (goal s) slot
                   then queue_close_slot slot sch else sch)
                (scheduler s) (get_active_slots (scheduler s))).
  split; [|split].
  - unfold close_finished_queues, bind at 1, emit, modify.
    unfold bind at 1, get. simpl.
    rewrite (close_loop_run (goal s)) by reflexivity.
    f_equal. destruct s. unfold set_trace, set_scheduler. simpl.
    f_equal. apply app_snoc_cons.
  - intros slot. simpl. rewrite closed_frontier_lookup.
    case_decide as Hin.
    + destruct Hin as [_ Hdone]. now rewrite Hdone.
    + destruct (is_acheived_for (goal s) slot) eqn:Hdone; [|reflexivity].
      destruct (queues (scheduler s) !! slot) eqn:Hq; [|reflexivity].
      exfalso. apply Hin. split; [|reflexivity].
      unfold get_active_slots. apply elem_of_elements, elem_of_dom. eauto.
  - intros slot. simpl. rewrite closed_frontier_closed.
    unfold get_active_slots. now rewrite elem_of_elements, elem_of_dom.
Qed.
End Closing.

(** ** Derived requests *)

Section Requests.
Context `{Collaborators}.

Lemma links_to_requests_cases (links : list Link)
    (links_matrix : option (list SAV)) (s : QSpider) :
  let out := (dedup_enumerated (seen_urls s) 0 links).1 in
  let s1 :=
    set_seen_urls (fun _ => (dedup_enumerated (seen_urls s) 0 links).2)
      (set_trace (fun tr => tr ++ [EvDeduplicate links]) s) in
  _links_to_requests links links_matrix s =
  match out with
  | [] => Return [] s1
  | _ :: _ =>
      match links_matrix with
      | None => Raise TypeError s1
      | Some rows =>
          match mapM (fun i => rows !! i) (map fst out) with
          | None => Raise IndexError s1
          | Some AS =>
              Return
                (zip_with (fun l vs => new_request l vs.1 vs.2)
                   (map snd out)
                   (zip AS (map (score_row (params (Q_ s))) AS)))
                (set_trace (fun tr => tr ++ [EvPredict AS]) s1)
          end
      end
  end.
Proof.
  intros out s1. unfold _links_to_requests, bind at 1.
  rewrite deduplicate_links_enumerated_eq. fold out. fold s1.
  destruct out as [|il out']; [reflexivity|].
  unfold select_rows, bind at 1. destruct links_matrix as [rows|];
    [|reflexivity].
  destruct (mapM _ _); reflexivity.
Qed.

Lemma dedup_enumerated_fresh (links : list Link) :
  forall (seen : gset string) (idx : nat),
    NoDup (map (fun il => link_url il.2) (dedup_enumerated seen idx links).1)
    /\ Forall (fun il => link_url il.2 ∉ seen)
              (dedup_enumerated seen idx links).1
    /\ (dedup_enumerated seen idx links).2
       = seen ∪ list_to_set (map link_url links).
Proof.
  induction links as [|l links IH]; intros seen idx; simpl.
  - split; [constructor|]. split; [constructor|]. set_solver.
  - case_bool_decide as Hl.
    + destruct (IH seen (S idx)) as (Hnodup & Hfresh & Hseen).
      split; [exact Hnodup|]. split; [exact Hfresh|].
      rewrite Hseen. set_solver.
    + destruct (IH ({[link_url l]} ∪ seen) (S idx))
        as (Hnodup & Hfresh & Hseen).
      destruct (dedup_enumerated ({[link_url l]} ∪ seen) (S idx) links)
        as [out seen'] eqn:Hrun.
      simpl in *. split; [|split].
      * apply NoDup_cons. split; [|exact Hnodup].
        intros Hin. apply list_elem_of_fmap in Hin as (il & Heq & Hin).
        rewrite Forall_forall in Hfresh. specialize (Hfresh il Hin).
        set_solver.
      * constructor; [exact Hl|].
        eapply Forall_impl; [exact Hfresh|]. simpl. set_solver.
      * rewrite Hseen. set_solver.
Qed.

Lemma mapM_lookup_length {A} (rows : list A) (indices : list nat)
    (AS : list A) :
  mapM (fun i => rows !! i) indices = Some AS -> length AS = length indices.
Proof. intros Hm. symmetry. eapply length_mapM. exact Hm. Qed.

Lemma zip_with_urls (ls : list Link) (vs : list (SAV * Q)) :
  length vs = length ls ->
  map req_url (zip_with (fun l v => new_request l v.1 v.2) ls vs)
  = map link_url ls.
Proof.
  revert vs. induction ls as [|l ls IH]; intros [|v vs] Hlen;
    simpl in *; try discriminate; [reflexivity|].
  f_equal. apply IH. lia.
Qed.

Lemma zip_with_Forall {A B C} (P : C -> Prop) (f : A -> B -> C)
    (l : list A) (k : list B) :
  (forall x y, P (f x y)) -> Forall P (zip_with f l k).
Proof.
  intros Hf. revert k. induction l as [|x l IH]; intros [|y k]; simpl;
    constructor; auto.
Qed.

(** X11. Every request [_links_to_requests] returns, for any links and any
    matrix, is a derived one: it carries a state-action vector (so the
    response to it is never a seed), it is queued under the domain of its
    URL, and it carries no ['link'] key, so that
    [_debug_expected_vs_got] stays silent on the response to it. *)
Theorem derived_requests_are_not_seeds (links : list Link)
    (links_matrix : option (list SAV)) (s s' : QSpider)
    (requests : list Request) :
  _links_to_requests links links_matrix s = Return requests s' ->
  Forall
    (fun r =>
       is_seed (req_meta r) = false
       /\ scheduler_slot (req_meta r) = Some (get_domain (req_url r))
       /\ req_domain r = Some (get_domain (req_url r))
       /\ forall (txt : option string) (s0 : QSpider),
            _debug_expected_vs_got
              {| url := req_url r; request := r; text := txt |} s0
            = Return tt s0)
    requests.
Proof.
  rewrite links_to_requests_cases. cbv zeta.
  destruct (dedup_enumerated (seen_urls s) 0 links).1 as [|il out].
  { intros [= <- _]. constructor. }
  destruct links_matrix as [rows|]; [|discriminate].
  destruct (mapM _ _) as [AS|]; [|discriminate].
  intros Hrun.
  match type of Hrun with
  | Return ?r _ = _ => assert (Hreq : requests = r) by congruence
  end.
  rewrite Hreq. apply zip_with_Forall. intros l vs.
  repeat split.
Qed.

(** X12. No URL is requested twice: the requests [_links_to_requests] returns
    have pairwise distinct URLs, none of which was seen before the call;
    all the links it was given are seen after it, whether it returns or
    raises, so that a second call on the same links returns no request. *)
Theorem requests_have_fresh_urls (links : list Link)
    (links_matrix : option (list SAV)) (s : QSpider) :
  seen_urls (final_state (_links_to_requests links links_matrix s))
  = seen_urls s ∪ list_to_set (map link_url links)
  /\ (forall requests s',
        _links_to_requests links links_matrix s = Return requests s' ->
        NoDup (map req_url requests)
        /\ Forall (fun r => (req_url r ∉ seen_urls s)
                            /\ (req_url r ∈ seen_urls s')) requests
        /\ forall links_matrix',
             returned (_links_to_requests links links_matrix' s') = Some []).
Proof.
  pose proof (dedup_enumerated_fresh links (seen_urls s) 0)
    as (Hnodup & Hfresh & Hseen).
  assert (Hfinal :
    seen_urls (final_state (_links_to_requests links links_matrix s))
    = seen_urls s ∪ list_to_set (map link_url links)).
  { rewrite links_to_requests_cases. cbv zeta.
    destruct (dedup_enumerated (seen_urls s) 0 links).1 as [|il out];
      [exact Hseen|].
    destruct links_matrix as [rows|]; [|exact Hseen].
    destruct (mapM _ _); exact Hseen. }
  split; [exact Hfinal|].
  intros requests s' Hrun. rewrite Hrun in Hfinal. simpl in Hfinal.
  assert (Hurls : map req_url requests
                  = map (fun il => link_url il.2)
                        (dedup_enumerated (seen_urls s) 0 links).1).
  { revert Hrun. rewrite links_to_requests_cases. cbv zeta.
    destruct (dedup_enumerated (seen_urls s) 0 links).1 as [|il out] eqn:Hout.
    { now intros [= <- _]. }
    destruct links_matrix as [rows|]; [|discriminate].
    destruct (mapM _ _) as [AS|] eqn:HAS; [|discriminate].
    intros Hrun.
    match type of Hrun with
    | Return ?r _ = _ => assert (Hreq : requests = r) by congruence
    end.
    rewrite Hreq, zip_with_urls.
    - now rewrite map_map.
    - apply mapM_lookup_length in HAS.
      rewrite length_zip, !length_map, HAS, !length_map. lia. }
  split; [now rewrite Hurls|]. split.
  - apply Forall_forall. intros r Hr.
    assert (Hin : req_url r ∈ map req_url requests)
      by (apply list_elem_of_fmap; eauto).
    rewrite Hurls in Hin.
    apply list_elem_of_fmap in Hin as (il & Heq & Hin).
    rewrite Forall_forall in Hfresh. specialize (Hfresh il Hin).
    split; [now rewrite Heq|].
    rewrite Hfinal, Heq.
    assert (link_url il.2 ∈ (dedup_enumerated (seen_urls s) 0 links).2)
      as Hx; [|rewrite Hseen in Hx; exact Hx].
    clear -Hin. revert Hin. generalize (seen_urls s), 0%nat.
    induction links as [|l links IH]; intros seen idx; simpl.
    { intros Hin. now apply elem_of_nil in Hin. }
    case_bool_decide as Hl; [apply IH|].
    destruct (dedup_enumerated ({[link_url l]} ∪ seen) (S idx) links)
      as [out seen'] eqn:Hrun.
    simpl. intros Hin. apply elem_of_cons in Hin as [->|Hin].
    + simpl. pose proof (dedup_enumerated_fresh links
                           ({[link_url l]} ∪ seen) (S idx)) as (_ & _ & Hs).
      rewrite Hrun in Hs. simpl in Hs. rewrite Hs. set_solver.
    + specialize (IH ({[link_url l]} ∪ seen) (S idx)).
      rewrite Hrun in IH. now apply IH.
  - intros m'. rewrite links_to_requests_cases. cbv zeta.
    assert (Hnone : (dedup_enumerated (seen_urls s') 0 links).1 = []).
    { rewrite Hfinal. clear. generalize 0%nat.
      assert (Hall : Forall (fun l => link_url l
                               ∈ seen_urls s
                                 ∪ list_to_set (map link_url links)) links).
      { apply Forall_forall. intros l Hl.
        apply elem_of_union_r, elem_of_list_to_set, list_elem_of_fmap.
        eauto. }
      revert Hall. generalize (seen_urls s ∪ list_to_set (map link_url links)).
      induction links as [|l links IH]; intros seen Hall idx; [reflexivity|].
      simpl. apply Forall_cons in Hall as [Hl Hall].
      rewrite bool_decide_eq_true_2 by exact Hl. now apply IH. }
    now rewrite Hnone.
Qed.

(** X13. [links_matrix[list(indices)]] on a missing matrix: when at least one
    link survives deduplication and there is no matrix, [TypeError] is
    raised, before any prediction, and the links are already marked as
    seen. *)
Theorem links_without_matrix (links : list Link) (s : QSpider) :
  surviving_links (seen_urls s) links <> [] ->
  NoDup (map link_url links) ->
  exists s',
    _links_to_requests links None s = Raise TypeError s'
    /\ new_events (_links_to_requests links None) s = [EvDeduplicate links]
    /\ seen_urls s' = seen_urls s ∪ list_to_set (map link_url links).
Proof.
  intros Hsome Hnodup.
  pose proof (dedup_enumerated_spec links links [] (seen_urls s)
                eq_refl Hnodup) as [Hsnd _].
  pose proof (dedup_enumerated_fresh links (seen_urls s) 0) as (_ & _ & Hseen).
  simpl in Hsnd. unfold new_events.
  rewrite links_to_requests_cases. cbv zeta.
  destruct (dedup_enumerated (seen_urls s) 0 links).1 as [|il out].
  { simpl in Hsnd. congruence. }
  eexists. split; [reflexivity|]. simpl.
  split; [now rewrite drop_app_length|exact Hseen].
Qed.
End Requests.

(** ** The crawl graph *)

Section Graph.
Context `{Collaborators}.

Lemma update_node_without_id (response : Response)
    (data : gmap string NodeValue) (s : QSpider)
    (g : gmap Z (gmap string NodeValue)) :
  G s = Some g -> node_id (meta response) = None ->
  update_node response data s = Raise (KeyError "node_id") s.
Proof. intros HG Hid. unfold update_node, bind, get. now rewrite HG, Hid. Qed.

(** X6. [update_node] without a crawl graph does nothing. With one, it needs
    the ['node_id'] of the response and the node itself ([KeyError]
    otherwise, the spider being left as it was); it then stores the step
    counter under ['t'] and the given data in that node, the data winning
    over ['t'] and over the keys the node had, and touches no other node
    and nothing else in the spider. *)
Theorem update_node_effect (response : Response)
    (data : gmap string NodeValue) (s : QSpider) :
  (G s = None -> update_node response data s = Return tt s)
  /\ (forall g,
        G s = Some g -> node_id (meta response) = None ->
        update_node response data s = Raise (KeyError "node_id") s)
  /\ (forall g nid,
        G s = Some g -> node_id (meta response) = Some nid ->
        g !! nid = None ->
        update_node response data s = Raise (KeyError "node") s)
  /\ (forall g nid node,
        G s = Some g -> node_id (meta response) = Some nid ->
        g !! nid = Some node ->
        exists node',
          update_node response data s
          = Return tt (set_G (fun _ => Some (<[ nid := node' ]> g)) s)
          /\ forall key,
               node' !! key
               = match data !! key with
                 | Some v => Some v
                 | None => if decide (key = "t")
                           then Some (NInt (t_ (Q_ s)))
                           else node !! key
                 end).
Proof.
  repeat split.
  - intros HG. unfold update_node, bind, get. now rewrite HG.
  - intros g HG Hid. unfold update_node, bind, get. now rewrite HG, Hid.
  - intros g nid HG Hid Hnode. unfold update_node, bind, get.
    now rewrite HG, Hid, Hnode.
  - intros g nid node HG Hid Hnode.
    exists (data ∪ <[ "t" := NInt (t_ (Q_ s)) ]> node). split.
    + unfold update_node, bind, get. now rewrite HG, Hid, Hnode.
    + intros key. rewrite lookup_union.
      destruct (data !! key) as [v|] eqn:Hdata.
      * destruct (<[ "t" := NInt (t_ (Q_ s)) ]> node !! key); reflexivity.
      * rewrite (left_id_L None _).
        case_decide as Hkey.
        -- subst key. apply lookup_insert_eq.
        -- now apply lookup_insert_ne.
Qed.
End Graph.

(** ** Learning from a response *)

Section Learning.
Context `{Collaborators}.

(** What [QLearner.add_experience] leaves in the spider. *)
Lemma add_experience_run (x : Experience) (s : QSpider) :
  exists s',
    Q_add_experience on_model_changed x s = Return tt s'
    /\ Q_ s'
       = {| t_ := t_ (Q_ s) + 1; memory := memory (Q_ s) ++ [x];
            params := fit (params (Q_ s)) (memory (Q_ s) ++ [x])
                          (t_ (Q_ s) + 1) |}
    /\ (exists new,
          trace s' = trace s ++ EvAddExperience x :: new
          /\ Forall (fun e => is_add_experience e = false) new)
    /\ baseline s' = baseline s /\ use_pages s' = use_pages s
    /\ stay_in_domain s' = stay_in_domain s
    /\ checkpoint_interval s' = checkpoint_interval s
    /\ checkpoint_path s' = checkpoint_path s
    /\ total_reward s' = total_reward s /\ goal s' = goal s
    /\ G s' = G s /\ seen_urls s' = seen_urls s
    /\ response_count s' = response_count s
    /\ crawler_stats s' = crawler_stats s
    /\ closed_slots (scheduler s') = closed_slots (scheduler s)
    /\ dom (queues (scheduler s')) = dom (queues (scheduler s))
    /\ scheduler s'
       = if model_changed (t_ (Q_ s) + 1) (params (Q_ s)) (params (Q_ s'))
            && negb (baseline s)
         then refreshed_frontier (params (Q_ s')) (scheduler s)
         else scheduler s.
Proof.
  rewrite Q_add_experience_eq. cbv zeta.
  set (s2 := set_Q_ _ _).
  destruct (model_changed _ _ _) eqn:Hchanged.
  - rewrite on_model_changed_run. eexists. split; [reflexivity|].
    simpl. split; [reflexivity|]. split.
    { eexists. split; [now rewrite app_snoc_cons|].
      constructor; [reflexivity|]. constructor; [reflexivity|].
      destruct (baseline s); [constructor|].
      unfold refresh_events. apply Forall_flat_map, Forall_forall.
      intros slot _. constructor; [reflexivity|].
      destruct (vectors_of _); repeat constructor. }
    repeat (split; [reflexivity|]). rewrite Hchanged.
    destruct (baseline s); [now repeat split|]. simpl.
    split; [reflexivity|]. split; [apply dom_fmap_L|reflexivity].
  - exists s2. split; [reflexivity|]. simpl. split; [reflexivity|]. split.
    { exists []. now split. }
    repeat (split; [reflexivity|]). rewrite Hchanged. now split.
Qed.

(** X5. Every change of the model is counted once: [on_model_changed] returns,
    adds one to [model_changes] and touches nothing but that counter, the
    frontier and the trace. *)
Theorem model_change_is_counted (s : QSpider) :
  exists s',
    on_model_changed s = Return tt s'
    /\ model_changes s' = model_changes s + 1
    /\ Q_ s' = Q_ s /\ total_reward s' = total_reward s
    /\ goal s' = goal s /\ G s' = G s /\ seen_urls s' = seen_urls s
    /\ response_count s' = response_count s
    /\ closed_slots (scheduler s') = closed_slots (scheduler s)
    /\ get_active_slots (scheduler s') = get_active_slots (scheduler s).
Proof.
  rewrite on_model_changed_run. eexists. split; [reflexivity|]. simpl.
  repeat (split; [reflexivity|]).
  destruct (baseline s); [now split|]. simpl. split; [reflexivity|].
  unfold get_active_slots. simpl. now rewrite dom_fmap_L.
Qed.
End Learning.

(** ** Processing a textual response *)

Section Textual.
Context `{Collaborators}.

Lemma links_to_requests_run (links : list Link) (pv : option PageVector)
    (s : QSpider) :
  NoDup (map link_url links) ->
  _links_to_requests links (links_matrix_of links pv) s
  = Return (map (scored_request pv (params (Q_ s)))
                (surviving_links (seen_urls s) links))
      (set_trace
         (fun tr =>
            tr ++ EvDeduplicate links ::
            match surviving_links (seen_urls s) links with
            | [] => []
            | ls => [EvPredict (map (sav_of pv) ls)]
            end)
         (set_seen_urls
            (fun seen => seen ∪ list_to_set (map link_url links)) s)).
Proof.
  intros Hnodup.
  destruct (dedup_enumerated_spec links links [] (seen_urls s) eq_refl Hnodup)
    as [Hsurv Hout]. simpl in Hsurv, Hout.
  pose proof (dedup_enumerated_fresh links (seen_urls s) 0)
    as (_ & _ & Hseen).
  rewrite links_to_requests_cases. cbv zeta. rewrite Hseen.
  destruct (dedup_enumerated (seen_urls s) 0 links).1 as [|il out] eqn:Eout.
  - rewrite <- Hsurv. simpl. f_equal; destruct s; reflexivity.
  - pose proof (select_rows_eq links pv (il :: out)
                  s ltac:(discriminate) Hout) as Hsel.
    unfold select_rows in Hsel.
    destruct (links_matrix_of links pv) as [rows|]; [|discriminate].
    destruct (mapM _ _) as [AS|]; [|discriminate].
    injection Hsel as ->.
    rewrite <- Hsurv. apply (f_equal2 Return).
    + rewrite <- (zip_requests pv (params (Q_ s))).
      simpl. now rewrite !map_map.
    + destruct s. unfold set_trace, set_seen_urls. simpl. f_equal.
      rewrite <- app_assoc. simpl. now rewrite map_map.
Qed.

Lemma extracted_links_nodup (s : QSpider) (response : Response) :
  NoDup (map link_url (extracted_links s response)).
Proof. apply deduplicate_local_fresh. Qed.

Lemma textual_parse_unfold (response : Response) (s : QSpider) :
  has_text response = true ->
  _parse response s =
  (reward <-
     (if negb (is_seed (meta response))
      then
        s0 <- get ;;
        let reward := get_reward (goal s0) response in
        update_node response {[ "reward" := NFloat reward ]} ;;;
        modify (set_total_reward (fun total => (total + reward)%Q)) ;;;
        Q_add_experience on_model_changed
          {| as_t := link_vector (meta response);
             AS_t1 := links_matrix_of (extracted_links s response)
                        (page_vector_for s response);
             r_t1 := reward |} ;;;
        modify (set_goal (fun g => response_observed g response)) ;;;
        ret reward
      else ret 0%Q) ;;
   requests <- _links_to_requests (extracted_links s response)
                 (links_matrix_of (extracted_links s response)
                    (page_vector_for s response)) ;;
   ret (requests, reward)) s.
Proof.
  intros Htext. unfold _parse. rewrite Htext, andb_false_r. simpl.
  rewrite (bind_Return _ _ _ _ _ (get_page_vector_eq response s Htext)).
  now rewrite (bind_Return _ _ _ _ _ (extract_links_eq response s)).
Qed.

(** X7. A seed response with text: its deduplicated links are scored under the
    current parameters, those not seen before become requests; the reward
    is 0 and neither the Q function, the total reward, the goal nor the
    crawl graph is touched. *)
Theorem textual_seed_response (response : Response) (s : QSpider) :
  has_text response = true -> is_seed (meta response) = true ->
  exists s',
    _parse response s
    = Return
        (map (scored_request (page_vector_for s response) (params (Q_ s)))
             (surviving_links (seen_urls s) (extracted_links s response)),
         0%Q) s'
    /\ Q_ s' = Q_ s /\ total_reward s' = total_reward s
    /\ goal s' = goal s /\ G s' = G s
    /\ scheduler s' = scheduler s
    /\ seen_urls s'
       = seen_urls s
         ∪ list_to_set (map link_url (extracted_links s response)).
Proof.
  intros Htext Hseed. rewrite (textual_parse_unfold _ _ Htext), Hseed.
  simpl. unfold bind at 1, ret at 1. unfold bind at 1.
  rewrite (links_to_requests_run _ _ _ (extracted_links_nodup s response)).
  eexists. split; [reflexivity|]. simpl. repeat split.
Qed.

Lemma textual_response_run (response : Response) (s : QSpider) :
  has_text response = true -> is_seed (meta response) = false ->
  G s = None ->
  exists s' new,
    _parse response s
    = Return
        (map (scored_request (page_vector_for s response) (params (Q_ s')))
             (surviving_links (seen_urls s) (extracted_links s response)),
         get_reward (goal s) response) s'
    /\ Q_ s'
       = {| t_ := t_ (Q_ s) + 1;
            memory :=
              memory (Q_ s)
              ++ [{| as_t := link_vector (meta response);
                     AS_t1 := links_matrix_of (extracted_links s response)
                                (page_vector_for s response);
                     r_t1 := get_reward (goal s) response |}];
            params :=
              fit (params (Q_ s))
                (memory (Q_ s)
                 ++ [{| as_t := link_vector (meta response);
                        AS_t1 := links_matrix_of (extracted_links s response)
                                   (page_vector_for s response);
                        r_t1 := get_reward (goal s) response |}])
                (t_ (Q_ s) + 1) |}
    /\ total_reward s' = (total_reward s + get_reward (goal s) response)%Q
    /\ goal s' = response_observed (goal s) response
    /\ trace s'
       = trace s
         ++ EvAddExperience
              {| as_t := link_vector (meta response);
                 AS_t1 := links_matrix_of (extracted_links s response)
                            (page_vector_for s response);
                 r_t1 := get_reward (goal s) response |} :: new
    /\ Forall (fun e => is_add_experience e = false) new
    /\ G s' = None
    /\ checkpoint_interval s' = checkpoint_interval s
    /\ response_count s' = response_count s
    /\ scheduler s'
       = if model_changed (t_ (Q_ s) + 1) (params (Q_ s)) (params (Q_ s'))
            && negb (baseline s)
         then refreshed_frontier (params (Q_ s')) (scheduler s)
         else scheduler s.
Proof.
  intros Htext Hseed HG.
  rewrite (textual_parse_unfold _ _ Htext), Hseed.
  simpl. unfold bind at 1, bind at 1, get.
  rewrite (bind_Return _ _ _ _ _ (update_node_no_graph _ _ s HG)).
  unfold bind at 1, modify.
  set (s1 := set_total_reward _ s).
  set (x := {| as_t := _; AS_t1 := _; r_t1 := _ |}).
  destruct (add_experience_run x s1)
    as (s2 & Hrun & HQ & (new & Htr & Hnew) & _ & _ & _ & Hi & _ & Hr & Hg
        & HG2 & Hseen & Hcount & _ & _ & _ & Hsch).
  rewrite (bind_Return _ _ _ _ _ Hrun).
  unfold bind at 1, ret at 1. unfold bind at 1.
  set (s3 := set_goal _ s2).
  rewrite (links_to_requests_run _ _ _ (extracted_links_nodup s response)).
  unfold bind, ret.
  eexists _, _. split; [|split; [|split; [|split; [|split; [|split]]]]].
  - apply (f_equal2 Return); [|reflexivity]. unfold s3. simpl.
    now rewrite Hseen.
  - simpl. exact HQ.
  - simpl. exact Hr.
  - simpl. now rewrite Hg.
  - simpl. rewrite Htr. unfold s1. simpl.
    rewrite <- app_assoc. simpl. reflexivity.
  - apply Forall_app. split; [exact Hnew|].
    constructor; [reflexivity|].
    destruct (surviving_links _ _); repeat constructor.
  - simpl. rewrite HG2, Hi, Hcount. unfold s1. simpl.
    repeat split; auto.
Qed.


(** X8. A non-seed response with text, no crawl graph being tracked: the reward
    of the goal is accrued, exactly one experience is recorded, made of the
    vector of the request, the matrix of the extracted links and the
    reward, the goal observes the response, and the links not seen before
    become requests scored under the parameters as they are after that
    experience. *)
Theorem textual_response_is_learned (response : Response) (s : QSpider) :
  has_text response = true -> is_seed (meta response) = false ->
  G s = None ->
  exists s',
    _parse response s
    = Return
        (map (scored_request (page_vector_for s response) (params (Q_ s')))
             (surviving_links (seen_urls s) (extracted_links s response)),
         get_reward (goal s) response) s'
    /\ Q_ s'
       = {| t_ := t_ (Q_ s) + 1;
            memory :=
              memory (Q_ s)
              ++ [{| as_t := link_vector (meta response);
                     AS_t1 := links_matrix_of (extracted_links s response)
                                (page_vector_for s response);
                     r_t1 := get_reward (goal s) response |}];
            params :=
              fit (params (Q_ s))
                (memory (Q_ s)
                 ++ [{| as_t := link_vector (meta response);
                        AS_t1 := links_matrix_of (extracted_links s response)
                                   (page_vector_for s response);
                        r_t1 := get_reward (goal s) response |}])
                (t_ (Q_ s) + 1) |}
    /\ total_reward s' = (total_reward s + get_reward (goal s) response)%Q
    /\ goal s' = response_observed (goal s) response
    /\ count is_add_experience (new_events (_parse response) s) = 1%nat.
Proof.
  intros Htext Hseed HG.
  destruct (textual_response_run response s Htext Hseed HG)
    as (s' & new & Hrun & HQ & Hr & Hg & Htr & Hnew & _).
  exists s'. split; [exact Hrun|]. split; [exact HQ|]. split; [exact Hr|].
  split; [exact Hg|].
  unfold new_events. rewrite Hrun. simpl. rewrite Htr, drop_app_length.
  match goal with
  | |- count _ (?e :: ?l) = _ => change (e :: l) with ([e] ++ l)
  end.
  now rewrite count_app, (count_none _ _ Hnew).
Qed.

(** X10. When the crawl graph is tracked and the response has no ['node_id'],
    a non-seed response makes [_parse] raise [KeyError]. With text the
    spider is left exactly as it was: nothing is learned and no reward is
    accrued. Without text the experience has already been recorded when
    the error is raised. *)
Theorem missing_node_id (response : Response) (s : QSpider)
    (g : gmap Z (gmap string NodeValue)) :
  G s = Some g -> node_id (meta response) = None ->
  is_seed (meta response) = false ->
  (has_text response = true ->
   _parse response s = Raise (KeyError "node_id") s)
  /\ (has_text response = false ->
      exists s',
        _parse response s = Raise (KeyError "node_id") s'
        /\ memory (Q_ s') = memory (Q_ s) ++ [terminal_experience response]
        /\ t_ (Q_ s') = t_ (Q_ s) + 1).
Proof.
  intros HG Hid Hseed.
  split; intros Htext.
  - rewrite (textual_parse_unfold _ _ Htext), Hseed. simpl.
    unfold bind at 1, bind at 1, get. unfold bind at 1.
    now rewrite (update_node_without_id _ _ s g HG Hid).
  - rewrite (no_text_parse_eq _ _ Htext Hseed).
    destruct (add_experience_run (terminal_experience response) s)
      as (s2 & Hrun & HQ & _ & _ & _ & _ & _ & _ & _ & _ & HG2 & _).
    rewrite (bind_Return _ _ _ _ _ Hrun).
    unfold bind at 1.
    rewrite (update_node_without_id _ _ s2 g) by congruence.
    exists s2. rewrite HQ. now repeat split.
Qed.
End Textual.

(** ** Checkpoints, in full *)

Section CheckpointRun.
Context `{Collaborators}.

End CheckpointRun.

(** ** Processing a response, in full *)

Section ParseRun.
Context `{Collaborators}.

Lemma maybe_checkpoint_returns (s : QSpider) :
  checkpoint_interval s <> 0 ->
  exists s',
    maybe_checkpoint s = Return tt s'
    /\ response_count s' = response_count s
    /\ Q_ s' = Q_ s
    /\ total_reward s' = total_reward s
    /\ scheduler s' = scheduler s.
Proof.
  intros Hi. apply Z.eqb_neq in Hi.
  unfold maybe_checkpoint, bind, emit, modify, get, py_mod. simpl.
  rewrite Hi. simpl.
  destruct (negb _ || _); [eexists; repeat split|].
  unfold do_checkpoint, dump_policy, dump_crawl_graph, bind, emit, modify,
    get, ret. simpl.
  destruct (checkpoint_path s) as [path|]; [|eexists; repeat split].
  destruct (String.eqb path ""); simpl; [eexists; repeat split|].
  destruct (G s); simpl; eexists; repeat split.
Qed.

Lemma bind_Return_inv {S A B} (m : Eff S A) (k : A -> Eff S B) (s s'' : S)
    (b : B) :
  bind m k s = Return b s'' ->
  exists a s', m s = Return a s' /\ k a s' = Return b s''.
Proof. unfold bind. destruct (m s); [eauto|discriminate]. Qed.

Lemma parse_returns_to (response : Response) (s : QSpider) :
  G s = None ->
  exists out s',
    _parse response s = Return out s'
    /\ G s' = None
    /\ checkpoint_interval s' = checkpoint_interval s
    /\ response_count s' = response_count s
    /\ t_ (Q_ s')
       = t_ (Q_ s) + (if is_seed (meta response) then 0 else 1)
    /\ (total_reward s' == total_reward s + out.2)%Q
    /\ (baseline s = true -> scheduler s' = scheduler s).
Proof.
  intros HG.
  destruct (has_text response) eqn:Htext;
  destruct (is_seed (meta response)) eqn:Hseed.
  - rewrite (textual_parse_unfold _ _ Htext), Hseed. simpl.
    unfold bind at 1, ret at 1. unfold bind at 1.
    rewrite (links_to_requests_run _ _ _ (extracted_links_nodup s response)).
    eexists _, _. split; [reflexivity|]. simpl.
    repeat split; auto; try lia. now rewrite Qplus_0_r.
  - destruct (textual_response_run response s Htext Hseed HG)
      as (s' & new & Hrun & HQ & Hr & _ & _ & _ & HG' & Hi & Hc & Hsch).
    eexists _, s'. split; [exact Hrun|]. rewrite HQ, Hr. simpl.
    repeat split; auto. intros Hb. rewrite Hsch, Hb.
    now rewrite andb_false_r.
  - unfold _parse. rewrite Htext, Hseed. simpl.
    eexists _, s. split; [reflexivity|]. simpl.
    repeat split; auto; try lia. now rewrite Qplus_0_r.
  - rewrite (no_text_parse_eq _ _ Htext Hseed).
    destruct (add_experience_run (terminal_experience response) s)
      as (s2 & Hrun & HQ & _ & _ & _ & _ & Hi & _ & Hr & _ & HG2 & _ & Hc & _
          & _ & _ & Hsch).
    rewrite (bind_Return _ _ _ _ _ Hrun).
    rewrite (bind_Return _ _ _ _ _
               (update_node_no_graph _ _ s2 ltac:(congruence))).
    eexists _, s2. split; [reflexivity|]. rewrite HQ, Hr. simpl.
    split; [congruence|]. repeat split; auto.
    + now rewrite Qplus_0_r.
    + intros Hb. rewrite Hsch, Hb. now rewrite andb_false_r.
Qed.

Lemma close_loop_returns (s : QSpider) :
  exists s',
    close_loop s = Return tt s'
    /\ G s' = G s
    /\ checkpoint_interval s' = checkpoint_interval s
    /\ response_count s' = response_count s
    /\ Q_ s' = Q_ s
    /\ total_reward s' = total_reward s
    /\ baseline s' = baseline s
    /\ scheduler s'
       = foldl (fun sch slot =>
                  if is_acheived_for (goal s) slot
                  then queue_close_slot slot sch else sch)
               (scheduler s) (get_active_slots (scheduler s)).
Proof.
  unfold close_loop, bind at 1, get.
  rewrite (close_loop_run (goal s)) by reflexivity.
  eexists. split; [reflexivity|]. simpl. repeat split.
Qed.

Lemma debug_returns (response : Response) (s : QSpider) :
  exists s',
    _debug_expected_vs_got response s = Return tt s'
    /\ G s' = G s
    /\ checkpoint_interval s' = checkpoint_interval s
    /\ response_count s' = response_count s
    /\ Q_ s' = Q_ s
    /\ total_reward s' = total_reward s
    /\ baseline s' = baseline s
    /\ scheduler s' = scheduler s.
Proof.
  unfold _debug_expected_vs_got. destruct (link (meta response)).
  - unfold bind, get, emit, modify. eexists. split; [reflexivity|].
    simpl. repeat split.
  - exists s. repeat split.
Qed.

Lemma parse_run (response : Response) (s : QSpider) :
  G s = None -> checkpoint_interval s <> 0 ->
  exists out s',
    parse response s
    = Return
        (StatsItem
           (<[ "eps-policy" :=
                 match from_random_policy (req_meta (request response)) with
                 | Some b => SBool b
                 | None => SNone
                 end ]>
              (<[ "Q" := SFloat (priority_to_score
                                   (priority (request response))) ]>
                 (<[ "url" := SStr (url response) ]>
                    (<[ "reward" := SFloat out.2 ]>
                       (<[ "is_seed" := SBool (is_seed (meta response)) ]>
                          (get_stats_item s'))))))
         :: map RequestItem out.1) s'
    /\ response_count s' = response_count s + 1
    /\ t_ (Q_ s')
       = t_ (Q_ s) + (if is_seed (meta response) then 0 else 1)
    /\ (total_reward s' == total_reward s + out.2)%Q
    /\ (baseline s = true ->
        scheduler s'
        = foldl (fun sch slot =>
                   if is_acheived_for (goal s) slot
                   then queue_close_slot slot sch else sch)
                (scheduler s) (get_active_slots (scheduler s))).
Proof.
  intros HG Hi. rewrite parse_entered.
  set (s1 := set_trace _ _).
  destruct (close_loop_returns s1)
    as (s2 & Hclose & HG2 & Hi2 & Hc2 & HQ2 & Hr2 & Hb2 & Hsch2).
  rewrite (bind_Return _ _ _ _ _ Hclose). unfold after_closing.
  destruct (debug_returns response s2)
    as (s3 & Hdebug & HG3 & Hi3 & Hc3 & HQ3 & Hr3 & Hb3 & Hsch3).
  rewrite (bind_Return _ _ _ _ _ Hdebug).
  destruct (parse_returns_to response s3)
    as (out & s4 & Hparse & _ & Hi4 & Hc4 & Ht4 & Hr4 & Hsch4).
  { rewrite HG3, HG2. exact HG. }
  rewrite (bind_Return _ _ _ _ _ Hparse).
  unfold log_stats, bind at 1, emit, modify.
  set (s5 := set_trace _ s4).
  assert (Hi5 : checkpoint_interval s5 <> 0).
  { unfold s5. simpl. rewrite Hi4, Hi3, Hi2. exact Hi. }
  destruct (maybe_checkpoint_returns s5 Hi5)
    as (s6 & Hcheck & Hc6 & HQ6 & Hr6 & Hsch6).
  rewrite (bind_Return _ _ _ _ _ Hcheck).
  unfold bind, get, ret. exists out, s6. split; [reflexivity|].
  rewrite Hc6, HQ6, Hr6, Hsch6. unfold s5. simpl.
  rewrite Hc4, Hc3, Hc2, Ht4, HQ3, HQ2, Hr4, Hr3, Hr2.
  repeat split. intros Hb.
  rewrite Hsch4, Hsch3, Hsch2 by (now rewrite Hb3, Hb2). reflexivity.
Qed.

(** X15. With no crawl graph tracked and a non-zero checkpoint interval,
    [parse] raises nothing, whatever the response: it returns its items,
    the response has been counted once, and the step counter of the Q
    function has advanced by one for a non-seed response and not at all
    for a seed. *)
Theorem parse_returns (response : Response) (s : QSpider) :
  G s = None -> checkpoint_interval s <> 0 ->
  exists items s',
    parse response s = Return items s'
    /\ response_count s' = response_count s + 1
    /\ t_ (Q_ s')
       = t_ (Q_ s) + (if is_seed (meta response) then 0 else 1).
Proof.
  intros HG Hi.
  destruct (parse_run response s HG Hi)
    as (out & s' & Hrun & Hcount & Ht & _).
  eexists _, s'. split; [exact Hrun|]. split; [exact Hcount|exact Ht].
Qed.


(** X22. In baseline mode, with no crawl graph tracked and a non-zero
    checkpoint interval, processing a response changes the frontier only
    by closing the slots whose goal is achieved: the queue of every other
    slot, priorities included, is what it was. *)
Theorem baseline_never_reprices (response : Response) (s : QSpider) :
  baseline s = true -> G s = None -> checkpoint_interval s <> 0 ->
  exists items s',
    parse response s = Return items s'
    /\ forall slot,
         queues (scheduler s') !! slot
         = if is_acheived_for (goal s) slot then None
           else queues (scheduler s) !! slot.
Proof.
  intros Hb HG Hi.
  destruct (parse_run response s HG Hi)
    as (out & s' & Hrun & _ & _ & _ & Hsch).
  eexists _, s'. split; [exact Hrun|]. intros slot.
  rewrite (Hsch Hb), closed_frontier_lookup.
  case_decide as Hin.
  - destruct Hin as [_ Hdone]. now rewrite Hdone.
  - destruct (is_acheived_for (goal s) slot) eqn:Hdone; [|reflexivity].
    destruct (queues (scheduler s) !! slot) eqn:Hq; [|reflexivity].
    exfalso. apply Hin. split; [|reflexivity].
    unfold get_active_slots. apply elem_of_elements, elem_of_dom. eauto.
Qed.

(** X16. What [parse] yields when it returns: first the stats item, then the
    requests [_parse] derived, in their order. The stats are read after
    the response has been learned from: ['t'] and ['return'] are the step
    counter and the total reward of the final state, ['reward'] is the
    reward [_parse] returned, ['Q'] decodes the priority the request had,
    and ['todo'] is what was enqueued less what was processed or
    dropped. *)
Theorem parse_yields_stats_then_requests (response : Response)
    (s s' : QSpider) (items : list Item) :
  parse response s = Return items s' ->
  exists stats requests reward s3 s4,
    items = StatsItem stats :: map RequestItem requests
    /\ _parse response s3 = Return (requests, reward) s4
    /\ stats !! "_type" = Some (SStr "stats")
    /\ stats !! "t" = Some (SInt (t_ (Q_ s')))
    /\ stats !! "return" = Some (SFloat (total_reward s'))
    /\ stats !! "reward" = Some (SFloat reward)
    /\ stats !! "is_seed" = Some (SBool (is_seed (meta response)))
    /\ stats !! "url" = Some (SStr (url response))
    /\ stats !! "Q"
       = Some (SFloat (priority_to_score (priority (request response))))
    /\ stats !! "domains_open"
       = Some (SInt (Z.of_nat (length (get_active_slots (scheduler s')))))
    /\ stats !! "domains_closed"
       = Some (SInt (Z.of_nat (size (closed_slots (scheduler s')))))
    /\ stats !! "todo"
       = Some (SInt (get_value s' "custom-scheduler/enqueued/" 0
                     - get_value s' "custom-scheduler/dequeued/" 0
                     - get_value s' "custom-scheduler/dropped/" 0)).
Proof.
  unfold parse. intros Hrun.
  apply bind_Return_inv in Hrun as (? & s1 & _ & Hrun).
  apply bind_Return_inv in Hrun as (? & s2 & _ & Hrun).
  apply bind_Return_inv in Hrun as (? & s3 & _ & Hrun).
  apply bind_Return_inv in Hrun as ([requests reward] & s4 & Hparse & Hrun).
  apply bind_Return_inv in Hrun as (? & s5 & _ & Hrun).
  apply bind_Return_inv in Hrun as (? & s6 & _ & Hrun).
  unfold bind, get, ret in Hrun. injection Hrun as <- <-.
  eexists _, requests, reward, s3, s4.
  split; [reflexivity|]. split; [exact Hparse|].
  unfold get_stats_item, _domain_stats. simpl.
  repeat split; reflexivity.
Qed.

End ParseRun.

(** ** The refresh pass: predictions, idempotence, precision *)

Section RefreshFacts.
Context `{Collaborators}.

Lemma vectors_of_nil (q : list Request) :
  vectors_of q = []
  <-> existsb (fun r => negb (is_seed (req_meta r))) q = false.
Proof.
  unfold vectors_of, is_seed. induction q as [|r q IH]; simpl; [tauto|].
  destruct (link_vector (req_meta r)); simpl; [|exact IH].
  split; discriminate.
Qed.

Lemma count_refresh_events (qs : gmap string (list Request))
    (slots : list string) :
  count is_predict (refresh_events qs slots)
  = length
      (filter
         (fun slot =>
            existsb (fun r => negb (is_seed (req_meta r)))
                    (default [] (qs !! slot)) = true)
         slots).
Proof.
  induction slots as [|slot slots IH]; [reflexivity|].
  unfold refresh_events. simpl. fold (refresh_events qs slots).
  change (EvUpdatePriorities slot :: ?l) with ([EvUpdatePriorities slot] ++ l).
  rewrite !count_app, IH. simpl.
  destruct (existsb (fun r => negb (is_seed (req_meta r)))
                    (default [] (qs !! slot))) eqn:Hex.
  - rewrite filter_cons_True by exact Hex.
    destruct (vectors_of (default [] (qs !! slot))) eqn:Hv.
    + apply vectors_of_nil in Hv. congruence.
    + reflexivity.
  - rewrite filter_cons_False by congruence.
    apply vectors_of_nil in Hex. now rewrite Hex.
Qed.

(** X2. A refresh pass outside baseline mode visits the open slots in the
    order [get_active_slots] gives them and makes one prediction call for
    each slot that holds at least one derived request, over the vectors of
    all derived requests of that slot, and none for a slot of seed-like
    requests only. *)
Theorem refresh_predicts_once_per_slot (s : QSpider) :
  baseline s = false ->
  new_events recalculate_request_priorities s
  = EvRecalculate ::
    refresh_events (queues (scheduler s)) (get_active_slots (scheduler s))
  /\ count is_predict (new_events recalculate_request_priorities s)
     = length
         (filter
            (fun slot =>
               existsb (fun r => negb (is_seed (req_meta r)))
                       (default [] (queues (scheduler s) !! slot)) = true)
            (get_active_slots (scheduler s))).
Proof.
  intros Hb.
  assert (Hnew : new_events recalculate_request_priorities s
                 = EvRecalculate ::
                   refresh_events (queues (scheduler s))
                     (get_active_slots (scheduler s))).
  { unfold new_events. rewrite (recalculate_run s Hb). simpl.
    now rewrite drop_app_length. }
  split; [exact Hnew|]. rewrite Hnew.
  change (EvRecalculate :: ?l) with ([EvRecalculate] ++ l).
  rewrite count_app. simpl. apply count_refresh_events.
Qed.

Lemma refreshed_idempotent (model : Model) (r : Request) :
  refreshed model (refreshed model r) = refreshed model r.
Proof.
  unfold refreshed. destruct (link_vector (req_meta r)) eqn:Hv; simpl;
    now rewrite Hv.
Qed.

Lemma refreshed_frontier_idempotent (model : Model) (sch : Scheduler) :
  refreshed_frontier model (refreshed_frontier model sch)
  = refreshed_frontier model sch.
Proof.
  unfold refreshed_frontier. simpl. f_equal.
  rewrite <- map_fmap_compose. apply map_fmap_ext. intros slot q _.
  simpl. rewrite map_map. apply map_ext. apply refreshed_idempotent.
Qed.

(** X3. A refresh pass keeps the open and the closed slots, and a second pass
    under the same value function changes nothing in the frontier. *)
Theorem refresh_is_idempotent (s : QSpider) :
  baseline s = false ->
  exists s1 s2,
    recalculate_request_priorities s = Return tt s1
    /\ recalculate_request_priorities s1 = Return tt s2
    /\ scheduler s2 = scheduler s1
    /\ get_active_slots (scheduler s1) = get_active_slots (scheduler s)
    /\ closed_slots (scheduler s1) = closed_slots (scheduler s).
Proof.
  intros Hb. eexists _, _. split; [apply (recalculate_run s Hb)|].
  split; [apply recalculate_run; exact Hb|]. simpl.
  split; [apply refreshed_frontier_idempotent|].
  split; [|reflexivity].
  unfold get_active_slots. simpl. now rewrite dom_fmap_L.
Qed.
End RefreshFacts.

Section TruncationFacts.
Import Codec.

Lemma truncate_nonneg (x : Q) : 0 <= Qnum x -> truncate x = Qfloor x.
Proof.
  destruct x as [n d]. unfold truncate. simpl. intros Hn.
  now apply Z.quot_div_nonneg.
Qed.

Lemma truncate_nonpos (x : Q) : Qnum x <= 0 -> truncate x = Qceiling x.
Proof.
  destruct x as [n d]. unfold truncate, Qceiling. simpl. intros Hn.
  rewrite <- (Z.opp_involutive n) at 1.
  rewrite Z.quot_opp_l by lia. f_equal.
  apply Z.quot_div_nonneg; lia.
Qed.

Lemma truncate_mono (x y : Q) : (x <= y)%Q -> truncate x <= truncate y.
Proof.
  intros Hxy.
  destruct (Z_le_gt_dec 0 (Qnum x)) as [Hx|Hx].
  - assert (Hy : 0 <= Qnum y).
    { unfold Qle in Hxy. nia. }
    rewrite !truncate_nonneg by assumption. now apply Qfloor_resp_le.
  - destruct (Z_le_gt_dec (Qnum y) 0) as [Hy|Hy].
    + rewrite !truncate_nonpos by lia. now apply Qceiling_resp_le.
    + rewrite truncate_nonpos, truncate_nonneg by lia.
      assert (Hc : Qceiling x <= 0).
      { change 0 with (Qceiling 0). apply Qceiling_resp_le.
        unfold Qle. simpl. lia. }
      assert (Hf : 0 <= Qfloor y).
      { change 0 with (Qfloor 0). apply Qfloor_resp_le.
        unfold Qle. simpl. lia. }
      lia.
Qed.

Lemma truncate_round (x : Q) : Z.abs (truncate x - round_half_even x) <= 1.
Proof.
  pose proof (truncate_near x) as Ht.
  pose proof (round_half_even_near x) as Hr.
  assert (Hlo : (inject_Z (truncate x - round_half_even x) < inject_Z 2)%Q).
  { unfold Z.sub. rewrite inject_Z_plus, inject_Z_opp.
    change (inject_Z 2) with 2%Q.
    generalize dependent (inject_Z (truncate x)).
    generalize dependent (inject_Z (round_half_even x)). intros. lra. }
  assert (Hhi : (inject_Z (-2) < inject_Z (truncate x - round_half_even x))%Q).
  { unfold Z.sub. rewrite inject_Z_plus, inject_Z_opp.
    change (inject_Z (-2)) with (-2)%Q.
    generalize dependent (inject_Z (truncate x)).
    generalize dependent (inject_Z (round_half_even x)). intros. lra. }
  rewrite <- Zlt_Qlt in Hlo, Hhi. lia.
Qed.

Lemma truncate_roundtrip (M : Z) (s : Q) :
  0 < M ->
  (Qabs (priority_to_score M (truncate (s * inject_Z M)) - s)
   < 1 / inject_Z M)%Q.
Proof.
  intros HM. unfold priority_to_score.
  pose proof (truncate_near (s * inject_Z M)) as Hn.
  pose proof (inject_Z_pos M HM) as Hm.
  generalize dependent (truncate (s * inject_Z M)). intros p Hn.
  generalize dependent (inject_Z M). intros m Hm Hn.
  generalize dependent (inject_Z p). intros ip Hn.
  apply Qabs_Qlt_condition.
  assert (E : (ip / m - s == (ip - s * m) / m)%Q) by (field; lra).
  rewrite E. split.
  - setoid_replace (- (1 / m))%Q with ((-1) / m)%Q using relation Qeq
      by (field; lra).
    apply Qmult_lt_compat_r; [|lra]. apply Qinv_lt_0_compat, Hm.
  - apply Qmult_lt_compat_r; [|lra]. apply Qinv_lt_0_compat, Hm.
Qed.
End TruncationFacts.

Section RefreshPrecision.
Context `{Collaborators}.


(** X20. Seeds are queued at the priority of the score 5, which is exactly
    5 M and decodes to 5 exactly. *)
Theorem initial_priority_is_exact :
  0 < FLOAT_PRIORITY_MULTIPLIER ->
  initial_priority = 5 * FLOAT_PRIORITY_MULTIPLIER
  /\ (priority_to_score initial_priority == 5)%Q.
Proof.
  intros HM.
  assert (Hp : initial_priority = 5 * FLOAT_PRIORITY_MULTIPLIER).
  { unfold initial_priority, score_to_priority, Codec.score_to_priority,
      Codec.round_half_even.
    assert (Hf : Qfloor (5 * inject_Z FLOAT_PRIORITY_MULTIPLIER)
                 = 5 * FLOAT_PRIORITY_MULTIPLIER).
    { unfold Qfloor, Qmult, inject_Z. simpl. apply Z.div_1_r. }
    cbv zeta. rewrite Hf.
    assert (Hlt : (5 * inject_Z FLOAT_PRIORITY_MULTIPLIER
                   - inject_Z (5 * FLOAT_PRIORITY_MULTIPLIER) < 1 # 2)%Q).
    { rewrite inject_Z_mult. change (inject_Z 5) with 5%Q.
      generalize (inject_Z FLOAT_PRIORITY_MULTIPLIER). intros m.
      setoid_replace (5 * m - 5 * m)%Q with 0%Q using relation Qeq by ring.
      reflexivity. }
    destruct (Qcompare_spec
                (5 * inject_Z FLOAT_PRIORITY_MULTIPLIER
                 - inject_Z (5 * FLOAT_PRIORITY_MULTIPLIER)) (1 # 2))
      as [E|E|E]; [exfalso|reflexivity|exfalso].
    - rewrite E in Hlt. now apply Qlt_irrefl in Hlt.
    - apply (Qlt_irrefl (1 # 2)). now apply (Qlt_trans _ _ _ E Hlt). }
  split; [exact Hp|]. rewrite Hp.
  unfold priority_to_score, Codec.priority_to_score.
  rewrite inject_Z_mult. change (inject_Z 5) with 5%Q.
  pose proof (inject_Z_pos _ HM) as Hm.
  generalize dependent (inject_Z FLOAT_PRIORITY_MULTIPLIER). intros m Hm.
  field. lra.
Qed.
End RefreshPrecision.

(** ** Along a crawl *)

Section Crawl.
Context `{Collaborators}.

(** X18. With a checkpoint interval of 0 and no crawl graph, every response is
    processed up to the checkpoint check, where [ZeroDivisionError] is
    raised: the response has been counted and, unless it is a seed, learned
    from, but nothing is yielded. *)
Theorem zero_interval_fails_after_learning (response : Response)
    (s : QSpider) :
  checkpoint_interval s = 0 -> G s = None ->
  exists s',
    parse response s = Raise ZeroDivisionError s'
    /\ t_ (Q_ s')
       = t_ (Q_ s) + (if is_seed (meta response) then 0 else 1)
    /\ response_count s' = response_count s + 1.
Proof.
  intros Hi HG. rewrite parse_entered.
  set (s1 := set_trace _ _).
  destruct (close_loop_returns s1)
    as (s2 & Hclose & HG2 & Hi2 & Hc2 & HQ2 & _).
  rewrite (bind_Return _ _ _ _ _ Hclose). unfold after_closing.
  destruct (debug_returns response s2)
    as (s3 & Hdebug & HG3 & Hi3 & Hc3 & HQ3 & _).
  rewrite (bind_Return _ _ _ _ _ Hdebug).
  destruct (parse_returns_to response s3)
    as (out & s4 & Hparse & _ & Hi4 & Hc4 & Ht4 & _).
  { rewrite HG3, HG2. exact HG. }
  rewrite (bind_Return _ _ _ _ _ Hparse).
  unfold log_stats, bind at 1, emit, modify.
  set (s5 := set_trace _ s4).
  assert (Hi5 : checkpoint_interval s5 = 0).
  { unfold s5. simpl. rewrite Hi4, Hi3, Hi2. exact Hi. }
  unfold bind at 1. rewrite (maybe_checkpoint_zero s5 Hi5).
  eexists. split; [reflexivity|]. simpl.
  rewrite Ht4, HQ3, HQ2, Hc4, Hc3, Hc2. split; reflexivity.
Qed.

Lemma parse_keeps_configuration (response : Response) (s0 : QSpider) :
  hoare
    (fun s => baseline s = baseline s0 /\ use_pages s = use_pages s0
              /\ stay_in_domain s = stay_in_domain s0
              /\ checkpoint_interval s = checkpoint_interval s0
              /\ checkpoint_path s = checkpoint_path s0)
    (parse response)
    (fun s => baseline s = baseline s0 /\ use_pages s = use_pages s0
              /\ stay_in_domain s = stay_in_domain s0
              /\ checkpoint_interval s = checkpoint_interval s0
              /\ checkpoint_path s = checkpoint_path s0).
Proof.
  apply (fr_parse_with
           (fun _ s => baseline s = baseline s0 /\ use_pages s = use_pages s0
                       /\ stay_in_domain s = stay_in_domain s0
                       /\ checkpoint_interval s = checkpoint_interval s0
                       /\ checkpoint_path s = checkpoint_path s0))
    with (k := 0%nat); auto.
  intros j Hj.
  apply (fr_parse_
           (fun _ s => baseline s = baseline s0 /\ use_pages s = use_pages s0
                       /\ stay_in_domain s = stay_in_domain s0
                       /\ checkpoint_interval s = checkpoint_interval s0
                       /\ checkpoint_path s = checkpoint_path s0))
    with (k := j); auto; lia.
Qed.

(** X19. Nothing in a crawl changes the configuration of the spider:
    the baseline flag, the feature switches and the checkpoint interval
    and path are, after any number of steps, what they were. *)
Theorem configuration_is_constant (s s' : QSpider) :
  steps s s' ->
  baseline s' = baseline s /\ use_pages s' = use_pages s
  /\ stay_in_domain s' = stay_in_domain s
  /\ checkpoint_interval s' = checkpoint_interval s
  /\ checkpoint_path s' = checkpoint_path s.
Proof.
  induction 1 as [s|s1 s2 s3 Hstep _ IH]; [repeat split|].
  assert (Hs2 : baseline s2 = baseline s1 /\ use_pages s2 = use_pages s1
                /\ stay_in_domain s2 = stay_in_domain s1
                /\ checkpoint_interval s2 = checkpoint_interval s1
                /\ checkpoint_path s2 = checkpoint_path s1).
  { destruct Hstep as [s response|s r|s slot i]; [|repeat split..].
    apply (parse_keeps_configuration response s s). repeat split. }
  destruct IH as (-> & -> & -> & -> & ->). exact Hs2.
Qed.
End Crawl.

(** ** The properties on the small crawl *)

Section OnExample.
Import Example.
#[local] Existing Instance vectors.
#[local] Existing Instance collaborators.





(** On a textual non-seed response the slots are closed before the
    experience is recorded, not after the refresh trigger. *)
Lemma spec_order_not_kept :
  new_events (parse page) pending !! 1%nat = Some EvCloseFinishedQueues
  /\ new_events (parse page) pending !! 2%nat
     = Some (EvAddExperience
               {| as_t := Some 1; AS_t1 := Some [2; 2]; r_t1 := 2 |})
  /\ ~ in_phase_order spec_phase (new_events (parse page) pending).
Proof.
  assert (H1 : new_events (parse page) pending !! 1%nat
               = Some EvCloseFinishedQueues) by (vm_compute; reflexivity).
  assert (H2 : new_events (parse page) pending !! 2%nat
               = Some (EvAddExperience
                         {| as_t := Some 1; AS_t1 := Some [2; 2];
                            r_t1 := 2 |})) by (vm_compute; reflexivity).
  split; [exact H1|]. split; [exact H2|]. intros Hord.
  specialize (Hord 2%nat 1%nat _ _ 1%nat 3%nat H2 H1 eq_refl eq_refl).
  lia.
Qed.


Lemma checkpoint_taken_iff_witness :
  0 <= t_ (Q_ (with_checkpoints (Some "out") 1000 (spider 1 2000)))
  /\ checkpoint_taken (with_checkpoints (Some "out") 1000 (spider 1 2000))
     = true.
Proof.
  assert (Ht : 0 <= t_ (Q_ (with_checkpoints (Some "out") 1000
                              (spider 1 2000)))) by (simpl; lia).
  split; [exact Ht|].
  apply (checkpoint_taken_iff _ Ht). split; [reflexivity|].
  split; [simpl; lia|]. exists 2. reflexivity.
Defined.

(** A positive multiple of the interval, and no checkpoint: no
    destination is configured. *)
Lemma no_checkpoint_without_destination :
  0 < t_ (Q_ (spider 1 1000))
  /\ (checkpoint_interval (spider 1 1000) | t_ (Q_ (spider 1 1000)))
  /\ checkpoint_taken (spider 1 1000) = false.
Proof.
  split; [simpl; lia|]. split; [exists 1; reflexivity|].
  vm_compute. reflexivity.
Qed.

Lemma closed_slot_is_terminal_witness :
  closed "a" (final_state (close_finished_queues reached))
  /\ "a" ∉ get_active_slots
             (scheduler
                (final_state
                   (parse page (final_state (close_finished_queues reached))))).
Proof.
  assert (Hclosed : closed "a" (final_state (close_finished_queues reached))).
  { apply (closed_slot_is_terminal "a" reached reached).
    - vm_compute. constructor.
    - vm_compute. reflexivity. }
  split; [exact Hclosed|].
  apply (closed_slot_is_terminal "a"
           (final_state (close_finished_queues reached))
           (final_state
              (parse page (final_state (close_finished_queues reached)))));
    [exact Hclosed|].
  eapply steps_cons; [apply step_parse|apply steps_refl].
Defined.

Lemma seed_response_records_nothing_witness :
  is_seed (meta seed_page) = true
  /\ Q_ (final_state (parse seed_page pending)) = Q_ pending
  /\ count is_add_experience (new_events (parse seed_page) pending) = 0%nat.
Proof.
  split; [reflexivity|].
  destruct (seed_response_records_nothing seed_page pending eq_refl)
    as (_ & HQ & _ & Hcount).
  split; [exact HQ|exact Hcount].
Defined.

Lemma codec_precision_and_order_witness :
  0 < 10000
  /\ (Qabs (Codec.priority_to_score 10000
              (Codec.score_to_priority 10000 (1 # 3)) - (1 # 3))
      <= 1 / inject_Z 10000)%Q.
Proof.
  split; [lia|].
  destruct (codec_precision_and_order 10000 (1 # 3) 0 1 ltac:(lia))
    as [Hprecision _].
  exact Hprecision.
Defined.

Lemma checkpoint_interval_zero_raises_witness :
  checkpoint_interval (with_checkpoints None 0 pending) = 0
  /\ returned (parse page (with_checkpoints None 0 pending)) = None.
Proof.
  split; [reflexivity|].
  destruct (checkpoint_interval_zero_raises
              (with_checkpoints None 0 pending)) as [Hzero _].
  destruct (Hzero eq_refl) as [_ Hparse]. apply Hparse.
Defined.

Lemma refresh_predicts_once_per_slot_witness :
  baseline pending = false
  /\ new_events recalculate_request_priorities pending
     = [EvRecalculate; EvUpdatePriorities "a"; EvPredict [1]].
Proof.
  split; [reflexivity|].
  destruct (refresh_predicts_once_per_slot pending eq_refl) as [Hnew _].
  rewrite Hnew. vm_compute. reflexivity.
Defined.

Lemma refresh_is_idempotent_witness :
  baseline pending = false
  /\ exists s1 s2,
       recalculate_request_priorities pending = Return tt s1
       /\ recalculate_request_priorities s1 = Return tt s2
       /\ scheduler s2 = scheduler s1.
Proof.
  split; [reflexivity|].
  destruct (refresh_is_idempotent pending eq_refl)
    as (s1 & s2 & H1 & H2 & Hsame & _).
  exists s1, s2. auto.
Defined.


Lemma update_node_effect_witness :
  exists node',
    update_node (node_page (Some 7)) {[ "reward" := NFloat 2 ]} tracked
    = Return tt
        (set_G (fun _ => Some (<[ 7 := node' ]>
                                 {[ 7 := {[ "depth" := NInt 1 ]} ]}))
               tracked)
    /\ node' !! "reward" = Some (NFloat 2)
    /\ node' !! "t" = Some (NInt 0)
    /\ node' !! "depth" = Some (NInt 1).
Proof.
  destruct (update_node_effect (node_page (Some 7))
              {[ "reward" := NFloat 2 ]} tracked) as (_ & _ & _ & Hstore).
  destruct (Hstore {[ 7 := {[ "depth" := NInt 1 ]} ]} 7
              {[ "depth" := NInt 1 ]} eq_refl eq_refl eq_refl)
    as (node' & Hrun & Hkeys).
  exists node'. split; [exact Hrun|].
  rewrite !Hkeys. repeat split.
Defined.

Lemma textual_seed_response_witness :
  has_text seed_page = true /\ is_seed (meta seed_page) = true
  /\ exists requests s',
       _parse seed_page pending = Return (requests, 0%Q) s'
       /\ map req_url requests = ["a1"; "a2"; "b1"]
       /\ Q_ s' = Q_ pending.
Proof.
  split; [reflexivity|]. split; [reflexivity|].
  destruct (textual_seed_response seed_page pending eq_refl eq_refl)
    as (s' & Hrun & HQ & _).
  eexists _, s'. split; [exact Hrun|]. split; [|exact HQ].
  vm_compute. reflexivity.
Defined.

Lemma textual_response_is_learned_witness :
  has_text page = true /\ is_seed (meta page) = false /\ G pending = None
  /\ exists requests s',
       _parse page pending = Return (requests, 2%Q) s'
       /\ t_ (Q_ s') = 1
       /\ total_reward s' = (0 + 2)%Q.
Proof.
  split; [reflexivity|]. split; [reflexivity|]. split; [reflexivity|].
  destruct (textual_response_is_learned page pending eq_refl eq_refl eq_refl)
    as (s' & Hrun & HQ & Hr & _).
  eexists _, s'. split; [exact Hrun|]. rewrite HQ. split; [reflexivity|].
  exact Hr.
Defined.


Lemma missing_node_id_witness :
  G tracked = Some {[ 7 := {[ "depth" := NInt 1 ]} ]}
  /\ node_id (meta (node_page None)) = None
  /\ is_seed (meta (node_page None)) = false
  /\ _parse (node_page None) tracked = Raise (KeyError "node_id") tracked.
Proof.
  split; [reflexivity|]. split; [reflexivity|]. split; [reflexivity|].
  destruct (missing_node_id (node_page None) tracked
              {[ 7 := {[ "depth" := NInt 1 ]} ]} eq_refl eq_refl eq_refl)
    as [Htext _].
  apply Htext. reflexivity.
Defined.

Lemma derived_requests_are_not_seeds_witness :
  exists requests s',
    _links_to_requests [mk_link "a3"; mk_link "a4"]
      (Some [2; 2]) pending = Return requests s'
    /\ length requests = 2%nat
    /\ Forall (fun r => is_seed (req_meta r) = false) requests.
Proof.
  assert (Hrun :
    _links_to_requests [mk_link "a3"; mk_link "a4"] (Some [2; 2]) pending
    = Return
        (default []
           (returned (_links_to_requests [mk_link "a3"; mk_link "a4"]
                        (Some [2; 2]) pending)))
        (final_state (_links_to_requests [mk_link "a3"; mk_link "a4"]
                        (Some [2; 2]) pending)))
    by (vm_compute; reflexivity).
  eexists _, _. split; [exact Hrun|]. split; [vm_compute; reflexivity|].
  eapply Forall_impl;
    [exact (derived_requests_are_not_seeds _ _ _ _ _ Hrun)|].
  intros r Hr. apply Hr.
Defined.

Lemma requests_have_fresh_urls_witness :
  exists requests s',
    _links_to_requests [mk_link "a3"; mk_link "a4"; mk_link "a3"]
      (Some [2; 2; 2]) pending = Return requests s'
    /\ NoDup (map req_url requests)
    /\ returned (_links_to_requests
                   [mk_link "a3"; mk_link "a4"; mk_link "a3"]
                   (Some [2; 2; 2]) s') = Some [].
Proof.
  assert (Hrun :
    _links_to_requests [mk_link "a3"; mk_link "a4"; mk_link "a3"]
      (Some [2; 2; 2]) pending
    = Return
        (default []
           (returned (_links_to_requests
                        [mk_link "a3"; mk_link "a4"; mk_link "a3"]
                        (Some [2; 2; 2]) pending)))
        (final_state (_links_to_requests
                        [mk_link "a3"; mk_link "a4"; mk_link "a3"]
                        (Some [2; 2; 2]) pending)))
    by (vm_compute; reflexivity).
  destruct (@requests_have_fresh_urls vectors collaborators
              [mk_link "a3"; mk_link "a4"; mk_link "a3"]
              (Some [2; 2; 2]) pending) as [_ Hfresh].
  destruct (Hfresh _ _ Hrun) as (Hnodup & _ & Hagain).
  eexists _, _. split; [exact Hrun|]. split; [exact Hnodup|].
  apply Hagain.
Defined.

Lemma links_without_matrix_witness :
  surviving_links (seen_urls pending) [mk_link "a3"; mk_link "a4"] <> []
  /\ NoDup (map link_url [mk_link "a3"; mk_link "a4"])
  /\ exists s',
       _links_to_requests [mk_link "a3"; mk_link "a4"] None pending
       = Raise TypeError s'.
Proof.
  assert (Hsome : surviving_links (seen_urls pending)
                    [mk_link "a3"; mk_link "a4"] <> [])
    by (vm_compute; discriminate).
  assert (Hnodup : NoDup (map link_url [mk_link "a3"; mk_link "a4"])).
  { apply (bool_decide_unpack _). vm_compute. exact I. }
  split; [exact Hsome|]. split; [exact Hnodup|].
  destruct (links_without_matrix [mk_link "a3"; mk_link "a4"] pending
              Hsome Hnodup) as (s' & Hrun & _).
  exists s'. exact Hrun.
Defined.


Lemma parse_returns_witness :
  G pending = None /\ checkpoint_interval pending <> 0
  /\ exists items s',
       parse page pending = Return items s'
       /\ response_count s' = 1.
Proof.
  assert (Hi : checkpoint_interval pending <> 0) by (simpl; lia).
  split; [reflexivity|]. split; [exact Hi|].
  destruct (parse_returns page pending eq_refl Hi)
    as (items & s' & Hrun & Hcount & _).
  exists items, s'. split; [exact Hrun|exact Hcount].
Defined.


Lemma baseline_never_reprices_witness :
  baseline (with_baseline true pending) = true
  /\ G (with_baseline true pending) = None
  /\ checkpoint_interval (with_baseline true pending) <> 0
  /\ exists items s',
       parse page (with_baseline true pending) = Return items s'
       /\ queues (scheduler s') !! "a"
          = Some [seed_request "a0"; derived_request "a1" 1 7].
Proof.
  assert (Hi : checkpoint_interval (with_baseline true pending) <> 0)
    by (simpl; lia).
  split; [reflexivity|]. split; [reflexivity|]. split; [exact Hi|].
  destruct (baseline_never_reprices page (with_baseline true pending)
              eq_refl eq_refl Hi) as (items & s' & Hrun & Hqueues).
  exists items, s'. split; [exact Hrun|]. rewrite Hqueues. reflexivity.
Defined.

Lemma parse_yields_stats_then_requests_witness :
  exists items s' stats requests,
    parse page pending = Return items s'
    /\ items = StatsItem stats :: map RequestItem requests
    /\ stats !! "t" = Some (SInt (t_ (Q_ s')))
    /\ stats !! "url" = Some (SStr "a1").
Proof.
  assert (Hrun :
    parse page pending
    = Return (default [] (returned (parse page pending)))
             (final_state (parse page pending)))
    by (vm_compute; reflexivity).
  destruct (parse_yields_stats_then_requests page pending _ _ Hrun)
    as (stats & requests & reward & s3 & s4 & Hitems & _ & _ & Ht & _ & _
        & _ & Hurl & _).
  eexists _, _, stats, requests. split; [exact Hrun|]. auto.
Defined.

Lemma zero_interval_fails_after_learning_witness :
  checkpoint_interval (with_checkpoints None 0 pending) = 0
  /\ G (with_checkpoints None 0 pending) = None
  /\ exists s',
       parse page (with_checkpoints None 0 pending)
       = Raise ZeroDivisionError s'
       /\ t_ (Q_ s') = 1.
Proof.
  split; [reflexivity|]. split; [reflexivity|].
  destruct (zero_interval_fails_after_learning page
              (with_checkpoints None 0 pending) eq_refl eq_refl)
    as (s' & Hrun & Ht & _).
  exists s'. split; [exact Hrun|exact Ht].
Defined.

Lemma configuration_is_constant_witness :
  steps pending (final_state (parse page pending))
  /\ checkpoint_interval (final_state (parse page pending)) = 1000.
Proof.
  assert (Hsteps : steps pending (final_state (parse page pending))).
  { eapply steps_cons; [apply step_parse|apply steps_refl]. }
  split; [exact Hsteps|].
  destruct (configuration_is_constant _ _ Hsteps) as (_ & _ & _ & Hi & _).
  exact Hi.
Defined.

Lemma initial_priority_is_exact_witness :
  0 < FLOAT_PRIORITY_MULTIPLIER /\ initial_priority = 50000.
Proof.
  assert (HM : 0 < FLOAT_PRIORITY_MULTIPLIER) by (simpl; lia).
  split; [exact HM|].
  destruct (initial_priority_is_exact HM) as [Hp _]. exact Hp.
Defined.
End OnExample.
